(** * karta/vector/vectorgeo.pyx: planar and geodesic nearest-point search

    A shallow embedding of the Cython module [vectorgeo.pyx] and the
    properties its specification states about it.

    Numbers.  Every [double] of the source is read as a real number of the
    Standard Library: [+], [-], [*], [/] are the field operations, [sqrt],
    [sin], [cos], [atan], [asin], [acos] the functions of [Reals], and
    [np.pi] is [PI].  Comparisons are the decidable order of [R].  Rounding,
    infinities and NaN are outside this reading; the module [Binary64]
    reads the planar functions once more on binary64 numbers, to run them
    on concrete inputs.  The C [float] argument [tol] is a real number as
    well.  The C [int] counters are integers of [Z]: a counter that
    starts at 0 and stops at [maxiter >= 0] never leaves the range of a C
    [int].

    Loops.  The two [while] loops take a natural number [fuel], one unit
    per test of the loop condition, and answer [None] when it runs out;
    the theorems say how much fuel gives the result.

    Callers' functions.  [fwd] and [inv] of [pt_nearest_proj] are total
    functions without effect, as the specification asks of them.

    Names.  Source names are kept.  The fields of the two C structs are
    [x2], [y2] for [Vector2] and [x3], [y3], [z3] for [Vector3], because
    the source reuses [x] and [y] as argument names. *)

From Stdlib Require Import Reals Lra Lia ZArith List Bool String.
From Stdlib Require PrimFloat.
Import ListNotations.

Local Open Scope R_scope.

(** ** Vectors and scalar helpers *)

Record Vector2 : Type := mkVector2 { x2 : R; y2 : R }.

Record Vector3 : Type := mkVector3 { x3 : R; y3 : R; z3 : R }.

Definition isleft (pt0 pt1 pt2 : R * R) : bool :=
  if Rgt_dec ((fst pt1 - fst pt0) * (snd pt2 - snd pt0)
              - (snd pt1 - snd pt0) * (fst pt2 - fst pt0)) 0
  then true else false.

Definition dot2 (u v : Vector2) : R := x2 u * x2 v + y2 u * y2 v.

Definition dot3 (u v : Vector3) : R := x3 u * x3 v + y3 u * y3 v + z3 u * z3 v.

Definition cross2 (u v : Vector2) : R := x2 u * y2 v - y2 u * x2 v.

Definition cross3 (u v : Vector3) : Vector3 :=
  mkVector3 (y3 u * z3 v - z3 u * y3 v)
            (z3 u * x3 v - x3 u * z3 v)
            (x3 u * y3 v - y3 u * x3 v).

Definition proj2 (u v : Vector2) : Vector2 :=
  let uv_vv := dot2 u v / dot2 v v in
  mkVector2 (uv_vv * x2 v) (uv_vv * y2 v).

Definition dist2 (pt0 pt1 : Vector2) : R :=
  sqrt ((x2 pt0 - x2 pt1) ^ 2 + (y2 pt0 - y2 pt1) ^ 2).

Definition mind (a b : R) : R := if Rle_dec a b then a else b.

Definition maxd (a b : R) : R := if Rge_dec a b then a else b.

Definition absd (a : R) : R := if Rlt_dec a 0 then - a else a.

(** ** Planar nearest point *)

(** The value of [pt_nearest_planar] is the nested tuple
    [((px, py), distance)]. *)
Definition pt_nearest_planar (x y endpt0_0 endpt0_1 endpt1_0 endpt1_1 : R)
  : (R * R) * R :=
  let pt := mkVector2 x y in
  let pt0 := mkVector2 endpt0_0 endpt0_1 in
  let pt1 := mkVector2 endpt1_0 endpt1_1 in
  let u := mkVector2 (x - x2 pt0) (y - y2 pt0) in
  let v := mkVector2 (x2 pt1 - x2 pt0) (y2 pt1 - y2 pt0) in
  let u_on_v := proj2 u v in
  let u_int := mkVector2 (x2 u_on_v + x2 pt0) (y2 u_on_v + y2 pt0) in
  if Rlt_dec (absd (x2 pt0 - x2 pt1)) 1e-4 then
    if Rgt_dec (y2 u_int) (maxd (y2 pt0) (y2 pt1)) then
      if Rgt_dec (y2 pt0) (y2 pt1)
      then ((x2 pt0, y2 pt0), dist2 pt0 pt)
      else ((x2 pt1, y2 pt1), dist2 pt1 pt)
    else if Rlt_dec (y2 u_int) (mind (y2 pt0) (y2 pt1)) then
      if Rlt_dec (y2 pt0) (y2 pt1)
      then ((x2 pt0, y2 pt0), dist2 pt0 pt)
      else ((x2 pt1, y2 pt1), dist2 pt1 pt)
    else ((x2 u_int, y2 u_int), dist2 u_int pt)
  else
    if Rgt_dec (x2 u_int) (maxd (x2 pt0) (x2 pt1)) then
      if Rgt_dec (x2 pt0) (x2 pt1)
      then ((x2 pt0, y2 pt0), dist2 pt0 pt)
      else ((x2 pt1, y2 pt1), dist2 pt1 pt)
    else if Rlt_dec (x2 u_int) (mind (x2 pt0) (x2 pt1)) then
      if Rlt_dec (x2 pt0) (x2 pt1)
      then ((x2 pt0, y2 pt0), dist2 pt0 pt)
      else ((x2 pt1, y2 pt1), dist2 pt1 pt)
    else ((x2 u_int, y2 u_int), dist2 u_int pt).

(** A point [q] lies on the closed segment from [e0] to [e1]. *)
Definition on_segment (e0 e1 q : R * R) : Prop :=
  exists t : R, 0 <= t <= 1 /\
    fst q = fst e0 + t * (fst e1 - fst e0) /\
    snd q = snd e0 + t * (snd e1 - snd e0).

(** The segment is classified as near vertical by the source. *)
Definition near_vertical (e0x e1x : R) : Prop := absd (e0x - e1x) < 1e-4.

(** The foot of the perpendicular from the query point on the line of
    the segment: [u_int] in [pt_nearest_planar]. *)
Definition foot (x y endpt0_0 endpt0_1 endpt1_0 endpt1_1 : R) : Vector2 :=
  let u_on_v := proj2 (mkVector2 (x - endpt0_0) (y - endpt0_1))
                      (mkVector2 (endpt1_0 - endpt0_0)
                                 (endpt1_1 - endpt0_1)) in
  mkVector2 (x2 u_on_v + endpt0_0) (y2 u_on_v + endpt0_1).

(** The clamp as the specification words it, on the coordinates [c0],
    [c1] of the endpoints and [cf] of the foot: beyond the maximum the
    endpoint with the larger coordinate, beyond the minimum the endpoint
    with the smaller one, the foot otherwise.  Compared with
    [pt_nearest_planar] below. *)
Definition clamp_as_stated (c0 c1 cf : R) (pt0 pt1 ft : Vector2) : Vector2 :=
  if Rgt_dec cf (Rmax c0 c1) then (if Rgt_dec c0 c1 then pt0 else pt1)
  else if Rlt_dec cf (Rmin c0 c1) then (if Rlt_dec c0 c1 then pt0 else pt1)
  else ft.

(** ** The planar functions on binary64 numbers *)

(** The same source functions with [double] read as the binary64 numbers
    of the kernel, every operation rounded as IEEE 754 asks.  [x ** 2] is
    read as [x * x]. *)
Module Binary64.

Import PrimFloat.

Record Vector2 : Type := mkVector2 { x2 : float; y2 : float }.

Definition dot2 (u v : Vector2) : float :=
  (x2 u * x2 v + y2 u * y2 v)%float.

Definition proj2 (u v : Vector2) : Vector2 :=
  let uv_vv := (dot2 u v / dot2 v v)%float in
  mkVector2 (uv_vv * x2 v)%float (uv_vv * y2 v)%float.

Definition dist2 (pt0 pt1 : Vector2) : float :=
  PrimFloat.sqrt ((x2 pt0 - x2 pt1) * (x2 pt0 - x2 pt1)
                  + (y2 pt0 - y2 pt1) * (y2 pt0 - y2 pt1))%float.

Definition mind (a b : float) : float := if (a <=? b)%float then a else b.

Definition maxd (a b : float) : float := if (b <=? a)%float then a else b.

Definition absd (a : float) : float := if (a <? 0)%float then (- a)%float else a.

(** The binary64 number nearest to 1e-4, as a C compiler reads the
    literal of the source. *)
Definition tol_vertical : float := 0x1.a36e2eb1c432dp-14%float.

Definition pt_nearest_planar (x y endpt0_0 endpt0_1 endpt1_0 endpt1_1 : float)
  : (float * float) * float :=
  let pt := mkVector2 x y in
  let pt0 := mkVector2 endpt0_0 endpt0_1 in
  let pt1 := mkVector2 endpt1_0 endpt1_1 in
  let u := mkVector2 (x - x2 pt0)%float (y - y2 pt0)%float in
  let v := mkVector2 (x2 pt1 - x2 pt0)%float (y2 pt1 - y2 pt0)%float in
  let u_on_v := proj2 u v in
  let u_int := mkVector2 (x2 u_on_v + x2 pt0)%float
                         (y2 u_on_v + y2 pt0)%float in
  if (absd (x2 pt0 - x2 pt1) <? tol_vertical)%float then
    if (maxd (y2 pt0) (y2 pt1) <? y2 u_int)%float then
      if (y2 pt1 <? y2 pt0)%float
      then ((x2 pt0, y2 pt0), dist2 pt0 pt)
      else ((x2 pt1, y2 pt1), dist2 pt1 pt)
    else if (y2 u_int <? mind (y2 pt0) (y2 pt1))%float then
      if (y2 pt0 <? y2 pt1)%float
      then ((x2 pt0, y2 pt0), dist2 pt0 pt)
      else ((x2 pt1, y2 pt1), dist2 pt1 pt)
    else ((x2 u_int, y2 u_int), dist2 u_int pt)
  else
    if (maxd (x2 pt0) (x2 pt1) <? x2 u_int)%float then
      if (x2 pt1 <? x2 pt0)%float
      then ((x2 pt0, y2 pt0), dist2 pt0 pt)
      else ((x2 pt1, y2 pt1), dist2 pt1 pt)
    else if (x2 u_int <? mind (x2 pt0) (x2 pt1))%float then
      if (x2 pt0 <? x2 pt1)%float
      then ((x2 pt0, y2 pt0), dist2 pt0 pt)
      else ((x2 pt1, y2 pt1), dist2 pt1 pt)
    else ((x2 u_int, y2 u_int), dist2 u_int pt).

(** The binary64 number nearest to 0.00005: the abscissa of the second
    endpoint in the runs below. *)
Definition short : float := 0x1.a36e2eb1c432dp-15%float.

End Binary64.

(** ** Spherical conversions *)

(** The C library's [atan2], on real numbers: the angle of the vector
    [(x, y)] in (-PI, PI], and [0] at the origin. *)
Definition atan2 (y x : R) : R :=
  if Rgt_dec x 0 then atan (y / x)
  else if Rlt_dec x 0 then
    if Rge_dec y 0 then atan (y / x) + PI else atan (y / x) - PI
  else if Rgt_dec y 0 then PI / 2
  else if Rlt_dec y 0 then - (PI / 2)
  else 0.

Definition polarangle (pt0 pt1 : R * R) : R :=
  atan2 (snd pt1 - snd pt0) (fst pt1 - fst pt0).

Definition sph2cart (a : Vector2) : Vector3 :=
  let theta := 90.0 - y2 a in
  mkVector3 (sin (PI * theta / 180.0) * cos (PI * x2 a / 180.0))
            (sin (PI * theta / 180.0) * sin (PI * x2 a / 180.0))
            (cos (PI * theta / 180.0)).

Definition cart2sph (a : Vector3) : Vector2 :=
  let lon :=
    if Rgt_dec (absd (x3 a)) 1e-8
    then atan2 (y3 a) (x3 a)
    else asin (y3 a / sqrt (x3 a * x3 a + y3 a * y3 a)) in
  let lat :=
    if Rgt_dec (absd (z3 a)) 1e-8
    then 0.5 * PI - atan (sqrt (x3 a * x3 a + y3 a * y3 a) / z3 a)
    else 0.5 * PI
         - acos (z3 a / sqrt (x3 a * x3 a + y3 a * y3 a + z3 a * z3 a)) in
  mkVector2 (lon * 180.0 / PI) (lat * 180.0 / PI).

Definition eulerpole_cart (a b : Vector3) : Vector3 := cross3 a b.

Definition eulerpole (a b : Vector2) : Vector3 :=
  let ac := sph2cart a in
  let bc := sph2cart b in
  cross3 ac bc.

Definition azimuth (pt1 pt2 : Vector2) : R :=
  atan2 (x2 pt2 - x2 pt1) (y2 pt2 - y2 pt1).

Definition azimuth_sph (pt1 pt2 : Vector2) : R :=
  let dlon := x2 pt2 - x2 pt1 in
  if Req_dec_T (cos (y2 pt1) * tan (y2 pt2) - sin (y2 pt1) * cos dlon) 0
  then 0.5 * PI
  else atan2 (sin dlon)
             (cos (y2 pt1) * tan (y2 pt2) - sin (y2 pt1) * cos dlon).

(** The two formulas of [cart2sph] for each coordinate, in degrees, named
    so that statements about the branch taken can refer to them. *)
Definition lon_atan2 (a : Vector3) : R := atan2 (y3 a) (x3 a) * 180.0 / PI.

Definition lon_asin (a : Vector3) : R :=
  asin (y3 a / sqrt (x3 a * x3 a + y3 a * y3 a)) * 180.0 / PI.

Definition lat_atan (a : Vector3) : R :=
  (0.5 * PI - atan (sqrt (x3 a * x3 a + y3 a * y3 a) / z3 a)) * 180.0 / PI.

Definition lat_acos (a : Vector3) : R :=
  (0.5 * PI
   - acos (z3 a / sqrt (x3 a * x3 a + y3 a * y3 a + z3 a * z3 a)))
  * 180.0 / PI.

(** [cart2sph] as the specification words it: the asin and acos formulas
    when the coordinate is below the threshold, "otherwise" the atan2 and
    atan formulas.  Compared with [cart2sph] below. *)
Definition cart2sph_as_stated (a : Vector3) : Vector2 :=
  mkVector2
    (if Rlt_dec (absd (x3 a)) 1e-8 then lon_asin a else lon_atan2 a)
    (if Rlt_dec (absd (z3 a)) 1e-8 then lat_acos a else lat_atan a).

(** ** Planar length of a coordinate sequence *)

(** Modelled from the spec: the container [CoordString] (coordstring.pyx)
    is imported by the source and is not part of it.  The specification
    asks for indexed access to the X and Y coordinates by position, a
    length, and, for a closed ring, access that wraps around to index 0
    past the last point.  Reading outside these positions is left
    unspecified there; here it yields [0]. *)
Record CoordString : Type := mkCoordString {
  coords : list (R * R);
  ring : bool
}.

Definition len (cs : CoordString) : Z := Z.of_nat (List.length (coords cs)).

Definition wrap_index (cs : CoordString) (index : Z) : Z :=
  if ring cs && (index =? len cs)%Z then 0%Z else index.

Definition getX (cs : CoordString) (index : Z) : R :=
  fst (nth (Z.to_nat (wrap_index cs index)) (coords cs) (0, 0)).

Definition getY (cs : CoordString) (index : Z) : R :=
  snd (nth (Z.to_nat (wrap_index cs index)) (coords cs) (0, 0)).

(** The [while i != (n-1)] loop of [length]; every test of the loop
    condition uses one unit of [fuel], and [None] is fuel exhausted. *)
Fixpoint length_loop (fuel : nat) (cs : CoordString) (n i : Z) (d x0 y0 : R)
  : option R :=
  match fuel with
  | O => None
  | S fuel' =>
      if (i =? n - 1)%Z then Some d
      else
        let x1 := getX cs (i + 1) in
        let y1 := getY cs (i + 1) in
        let d := d + sqrt ((x1 - x0) * (x1 - x0) + (y1 - y0) * (y1 - y0)) in
        length_loop fuel' cs n (i + 1) d x1 y1
  end.

Definition length (fuel : nat) (cs : CoordString) : option R :=
  let n := len cs in
  let n := if ring cs then (n + 1)%Z else n in
  let i := 0%Z in
  let d := 0.0 in
  let x0 := getX cs i in
  let y0 := getY cs i in
  length_loop fuel cs n i d x0 y0.

(** Euclidean length of the segment between two points. *)
Definition seg_len (p q : R * R) : R :=
  sqrt ((fst q - fst p) * (fst q - fst p) + (snd q - snd p) * (snd q - snd p)).

(** Sum of the lengths of the consecutive segments of an open path. *)
Fixpoint path_len (p : R * R) (ps : list (R * R)) : R :=
  match ps with
  | [] => 0
  | q :: ps' => seg_len p q + path_len q ps'
  end.

(** Sum of the segment lengths of the closed ring through the points,
    the closing segment from the last point back to the first included. *)
Definition ring_len (ps : list (R * R)) : R :=
  match ps with
  | [] => 0
  | p :: ps' => path_len p (ps' ++ [p])
  end.

(** ** Geodesic nearest point *)

Inductive exn : Type :=
| ConvergenceError (message : String.string).

(** How a call ends: with a value, or with a raised exception. *)
Inductive outcome (A : Type) : Type :=
| Returned (value : A)
| Raised (e : exn).

Arguments Returned {A} value.
Arguments Raised {A} e.

(** One call of [_along_distance_gradient], by its last two arguments. *)
Record grad_call : Type := mkGradCall { call_f : R; call_dx : R }.

(** The local variables of the bisection loop of [pt_nearest_proj]. *)
Record bisect_vars : Type := mkBisectVars {
  x0 : R;
  x1 : R;
  xm : R;
  dx : R;
  i : Z
}.

Section Geodesic.

(** The geodetic pair supplied by the caller.  Both are read as total
    functions of four numbers to a triple, called without effect. *)
Variable fwd : R -> R -> R -> R -> R * R * R.
Variable inv : R -> R -> R -> R -> R * R * R.

Definition _along_distance (x0 y0 xp yp az f : R) : R :=
  let '(trialx, trialy, _) := fwd x0 y0 az f in
  let '(_, _, d) := inv trialx trialy xp yp in
  d.

Definition _along_distance_gradient (x0 y0 xp yp az f dx : R) : R :=
  let d1 := _along_distance x0 y0 xp yp az f in
  let d2 := _along_distance x0 y0 xp yp az (f + dx) in
  (d2 - d1) / dx.

(** [_along_distance_gradient], with the call appended to the record
    [calls] of the gradient evaluations made so far.  The record is not
    a variable of the source: it keeps what the source does in order. *)
Definition gradient_call (x0 y0 xp yp az f dx : R) (calls : list grad_call)
  : R * list grad_call :=
  (_along_distance_gradient x0 y0 xp yp az f dx,
   calls ++ [mkGradCall f dx]).

Section Bisection.

Variables pt endpt0 endpt1 : R * R.
Variable tol : R.
Variable maxiter : Z.
Variables az L : R.

(** The body of the [while] loop after its two tests: bisect, take the
    gradient at the midpoint, keep the half the sign selects. *)
Definition bisect_body (s : bisect_vars) (calls : list grad_call)
  : bisect_vars * list grad_call :=
  let xm := 0.5 * (x0 s + x1 s) in
  let '(grad, calls) :=
    gradient_call (fst endpt0) (snd endpt0) (fst pt) (snd pt) az
                  (xm * L) (1e-7 * L) calls in
  if Rgt_dec grad 0 then
    (mkBisectVars (x0 s) xm xm (absd (x1 s - xm) * L) (i s + 1), calls)
  else
    (mkBisectVars xm (x1 s) xm (absd (x0 s - xm) * L) (i s + 1), calls).

(** The loop [while dx > tol].  Every test of the loop condition uses
    one unit of [fuel]; [None] is fuel exhausted. *)
Fixpoint bisect (fuel : nat) (s : bisect_vars) (calls : list grad_call)
  : option (outcome bisect_vars * list grad_call) :=
  match fuel with
  | O => None
  | S fuel' =>
      if Rgt_dec (dx s) tol then
        if (i s =? maxiter)%Z then
          Some (Raised (ConvergenceError
                  "Maximum iterations exhausted in bisection method."%string),
                calls)
        else
          let '(s', calls') := bisect_body s calls in
          bisect fuel' s' calls'
      else Some (Returned s, calls)
  end.

(** The variables as initialised before the loop. *)
Definition bisect_init : bisect_vars :=
  mkBisectVars 0.0 1.0 0.0 (tol + 1.0) 0.

End Bisection.

(** The result is the pair [(point, distance)], or the exception raised,
    together with the record of gradient evaluations. *)
Definition pt_nearest_proj (fuel : nat) (pt endpt0 endpt1 : R * R)
           (tol : R) (maxiter : Z)
  : option (outcome ((R * R) * R) * list grad_call) :=
  let '(az, az2, L) :=
    inv (fst endpt0) (snd endpt0) (fst endpt1) (snd endpt1) in
  let '(grad0, calls) :=
    gradient_call (fst endpt0) (snd endpt0) (fst pt) (snd pt) az
                  0 (1e-7 * L) [] in
  let '(grad1, calls) :=
    gradient_call (fst endpt0) (snd endpt0) (fst pt) (snd pt) az
                  L (1e-7 * L) calls in
  if Rgt_dec grad0 0 then
    let d := _along_distance (fst endpt0) (snd endpt0) (fst pt) (snd pt)
                             az 0 in
    Some (Returned (endpt0, d), calls)
  else if Rlt_dec grad1 0 then
    let d := _along_distance (fst endpt0) (snd endpt0) (fst pt) (snd pt)
                             az L in
    Some (Returned (endpt1, d), calls)
  else
    match bisect pt endpt0 tol maxiter az L fuel (bisect_init tol) calls with
    | None => None
    | Some (Raised e, calls) => Some (Raised e, calls)
    | Some (Returned s, calls) =>
        let '(xn, yn, _) := fwd (fst endpt0) (snd endpt0) az (xm s * L) in
        let d := _along_distance (fst endpt0) (snd endpt0) (fst pt) (snd pt)
                                 az (xm s * L) in
        Some (Returned ((xn, yn), d), calls)
    end.

(** The azimuth and the length of the segment, from the one inverse call
    on the endpoints. *)
Definition seg_az (endpt0 endpt1 : R * R) : R :=
  fst (fst (inv (fst endpt0) (snd endpt0) (fst endpt1) (snd endpt1))).

Definition seg_L (endpt0 endpt1 : R * R) : R :=
  snd (inv (fst endpt0) (snd endpt0) (fst endpt1) (snd endpt1)).

(** The along-distance functional of a search, and the two gradients the
    endpoint test looks at. *)
Definition along (pt endpt0 endpt1 : R * R) (f : R) : R :=
  _along_distance (fst endpt0) (snd endpt0) (fst pt) (snd pt)
                  (seg_az endpt0 endpt1) f.

Definition grad_at (pt endpt0 endpt1 : R * R) (f : R) : R :=
  _along_distance_gradient (fst endpt0) (snd endpt0) (fst pt) (snd pt)
    (seg_az endpt0 endpt1) f (1e-7 * seg_L endpt0 endpt1).

(** The value returned on the bisection path, from the final variables:
    the point [fwd] reaches at distance [xm * L], and its distance to the
    query point. *)
Definition bisect_value (pt endpt0 endpt1 : R * R) (s : bisect_vars)
  : (R * R) * R :=
  ((fst (fst (fwd (fst endpt0) (snd endpt0) (seg_az endpt0 endpt1)
                  (xm s * seg_L endpt0 endpt1))),
    snd (fst (fwd (fst endpt0) (snd endpt0) (seg_az endpt0 endpt1)
                  (xm s * seg_L endpt0 endpt1)))),
   along pt endpt0 endpt1 (xm s * seg_L endpt0 endpt1)).

(** No endpoint short-circuit applies: the loop is entered. *)
Definition enters_loop (pt endpt0 endpt1 : R * R) : Prop :=
  ~ grad_at pt endpt0 endpt1 0 > 0 /\
  ~ grad_at pt endpt0 endpt1 (seg_L endpt0 endpt1) < 0.

End Geodesic.

(** A geodetic pair for the examples: the points of the x axis, where
    [fwd] moves a point by [f] and [inv] measures the distance between
    two abscissas (both azimuths are [0]). *)
Definition line_fwd (x y az f : R) : R * R * R := (x + f, y, az).

Definition line_inv (xa ya xb yb : R) : R * R * R := (0, 0, absd (xb - xa)).

(** The unit square as a ring of four points. *)
Definition unit_square : CoordString :=
  mkCoordString [(0, 0); (1, 0); (1, 1); (0, 1)] true.

(** ** The bisection loop, iteration by iteration *)

Section Iterations.

Variables fwd inv : R -> R -> R -> R -> R * R * R.
Variables pt endpt0 : R * R.
Variables az L : R.

(** The loop variables and the record of calls after [k] runs of the
    loop body, the two tests of the loop left aside. *)
Fixpoint bisect_steps (k : nat) (s : bisect_vars) (calls : list grad_call)
  : bisect_vars * list grad_call :=
  match k with
  | O => (s, calls)
  | S k' =>
      let '(s', calls') := bisect_body fwd inv pt endpt0 az L s calls in
      bisect_steps k' s' calls'
  end.

Variable tol : R.
Variable maxiter : Z.

(** The loop continues at its test after [j] iterations: [dx > tol], and
    the counter is not [maxiter]. *)
Definition continues (s : bisect_vars) (calls : list grad_call) (j : nat)
  : Prop :=
  dx (fst (bisect_steps j s calls)) > tol /\
  i (fst (bisect_steps j s calls)) <> maxiter.

End Iterations.

(** The value of [dx] at the test of the loop condition after [j]
    iterations: the initial [tol + 1.0], then the width of the bracket in
    distance units. *)
Definition width_after (tol L : R) (j : nat) : R :=
  match j with
  | O => tol + 1.0
  | S _ => L / 2 ^ j
  end.

(** The invariant of the loop after [j] iterations. *)
Definition bisect_inv (tol L : R) (j : nat) (s : bisect_vars) : Prop :=
  i s = Z.of_nat j /\
  0 <= x0 s /\ x0 s < x1 s /\ x1 s <= 1 /\
  x1 s - x0 s = / 2 ^ j /\
  dx s = width_after tol L j.

(** Logarithm in base 2. *)
Definition log2 (r : R) : R := ln r / ln 2.

(** The number of iterations the loop runs before [dx > tol] fails: the
    ceiling of log2 (L / tol), and at least one. *)
Definition iterations_needed (tol L : R) : Z :=
  Z.max 1 (Zceil (log2 (L / tol))).

(** The exception of the bisection loop. *)
Definition exhausted : exn :=
  ConvergenceError "Maximum iterations exhausted in bisection method."%string.

(** The two gradient evaluations of the endpoint test, at [f = 0] and at
    [f = L], that every call of [pt_nearest_proj] starts with. *)
Definition endpoint_calls (L : R) : list grad_call :=
  [mkGradCall 0 (1e-7 * L); mkGradCall L (1e-7 * L)].

(** ** Notions for the further properties *)

(** The parameter of the foot on the line of the segment: [uv_vv] in
    [proj2], for the vectors [pt_nearest_planar] forms. *)
Definition foot_param (x y endpt0_0 endpt0_1 endpt1_0 endpt1_1 : R) : R :=
  dot2 (mkVector2 (x - endpt0_0) (y - endpt0_1))
       (mkVector2 (endpt1_0 - endpt0_0) (endpt1_1 - endpt0_1))
  / dot2 (mkVector2 (endpt1_0 - endpt0_0) (endpt1_1 - endpt0_1))
         (mkVector2 (endpt1_0 - endpt0_0) (endpt1_1 - endpt0_1)).

(** A parameter brought back into [0, 1]. *)
Definition clamp01 (s : R) : R :=
  if Rlt_dec s 0 then 0 else if Rgt_dec s 1 then 1 else s.

(** The point of parameter [t] on the line from [e0] to [e1]. *)
Definition along_segment (e0 e1 : R * R) (t : R) : R * R :=
  (fst e0 + t * (fst e1 - fst e0), snd e0 + t * (snd e1 - snd e0)).

(** The clamp of [pt_nearest_planar] can separate the endpoints: the
    segment is not both classified as near vertical and of equal y. *)
Definition clamp_separates (e0 e1 : R * R) : Prop :=
  near_vertical (fst e0) (fst e1) -> snd e0 <> snd e1.

(** Sum of the segment lengths of the open path through the points. *)
Definition open_len (ps : list (R * R)) : R :=
  match ps with
  | [] => 0
  | p :: ps' => path_len p ps'
  end.

(** Three corners of a 3-4-5 triangle, for the examples. *)
Definition corner_path : list (R * R) := [(0, 0); (3, 0); (3, 4)].

(** * Properties *)

(** ** Scalar helpers *)

Lemma absd_Rabs (a : R) : absd a = Rabs a.
Proof.
  unfold absd, Rabs.
  destruct (Rlt_dec a 0), (Rcase_abs a); lra.
Qed.

Lemma absd_nonneg (a : R) : 0 <= absd a.
Proof. rewrite absd_Rabs. apply Rabs_pos. Qed.

Lemma absd_pos_eq (a : R) : 0 <= a -> absd a = a.
Proof. intros H. unfold absd. destruct (Rlt_dec a 0); lra. Qed.

Lemma absd_neg_eq (a : R) : a <= 0 -> absd a = - a.
Proof. intros H. unfold absd. destruct (Rlt_dec a 0); lra. Qed.

Lemma maxd_Rmax (a b : R) : maxd a b = Rmax a b.
Proof.
  unfold maxd, Rmax.
  destruct (Rge_dec a b), (Rle_dec a b); lra.
Qed.

Lemma mind_Rmin (a b : R) : mind a b = Rmin a b.
Proof. reflexivity. Qed.

Lemma dist2_sym (p q : Vector2) : dist2 p q = dist2 q p.
Proof. unfold dist2. f_equal. ring. Qed.

Lemma dist2_nonneg (p q : Vector2) : 0 <= dist2 p q.
Proof. unfold dist2. apply sqrt_pos. Qed.

(** ** [pt_nearest_planar] *)

Lemma on_segment_endpt0 (e0 e1 : R * R) : on_segment e0 e1 e0.
Proof. exists 0. repeat split; lra. Qed.

Lemma on_segment_endpt1 (e0 e1 : R * R) : on_segment e0 e1 e1.
Proof. exists 1. repeat split; lra. Qed.

(** A foot whose clamped coordinate is between those of the endpoints has
    its parameter in [0, 1], when the endpoints differ in that coordinate. *)
Lemma clamped_parameter (a b s : R) :
  a <> b ->
  ~ s * (b - a) + a > maxd a b ->
  ~ s * (b - a) + a < mind a b ->
  0 <= s <= 1.
Proof.
  intros Hab Hmax Hmin.
  unfold maxd in Hmax. unfold mind in Hmin.
  destruct (Rge_dec a b), (Rle_dec a b); try lra; split; nra.
Qed.

(** X26: the distance returned is the distance from the query point to
    the point returned, in every branch. *)
Lemma pt_nearest_planar_distance (x y a0 a1 b0 b1 : R) :
  let r := pt_nearest_planar x y a0 a1 b0 b1 in
  snd r = dist2 (mkVector2 x y) (mkVector2 (fst (fst r)) (snd (fst r))).
Proof.
  unfold pt_nearest_planar; cbn [x2 y2].
  repeat match goal with
         | |- context [if ?c then _ else _] => destruct c
         end; cbn [fst snd]; apply dist2_sym.
Qed.

(** X27: the point returned lies on the closed segment, unless the
    segment is classified as near vertical and its endpoints have the
    same y. *)
Lemma pt_nearest_planar_on_segment (x y a0 a1 b0 b1 : R) :
  (near_vertical a0 b0 -> a1 <> b1) ->
  on_segment (a0, a1) (b0, b1) (fst (pt_nearest_planar x y a0 a1 b0 b1)).
Proof.
  intros Hv. unfold near_vertical in Hv.
  unfold pt_nearest_planar, proj2; cbv zeta; cbn [x2 y2].
  set (s := dot2 _ _ / dot2 _ _).
  destruct (Rlt_dec (absd (a0 - b0)) 1e-4) as [Hnv | Hnv].
  - specialize (Hv Hnv).
    destruct (Rgt_dec _ _) as [_ | Hmax].
    { destruct (Rgt_dec a1 b1);
        [apply on_segment_endpt0 | apply on_segment_endpt1]. }
    destruct (Rlt_dec _ _) as [_ | Hmin].
    { destruct (Rlt_dec a1 b1);
        [apply on_segment_endpt0 | apply on_segment_endpt1]. }
    exists s; cbn [fst snd]. split; [| split; ring].
    apply (clamped_parameter a1 b1 s); assumption.
  - assert (Hx : a0 <> b0).
    { intros ->. apply Hnv. replace (b0 - b0) with 0 by ring.
      rewrite absd_pos_eq; lra. }
    destruct (Rgt_dec _ _) as [_ | Hmax].
    { destruct (Rgt_dec a0 b0);
        [apply on_segment_endpt0 | apply on_segment_endpt1]. }
    destruct (Rlt_dec _ _) as [_ | Hmin].
    { destruct (Rlt_dec a0 b0);
        [apply on_segment_endpt0 | apply on_segment_endpt1]. }
    exists s; cbn [fst snd]. split; [| split; ring].
    apply (clamped_parameter a0 b0 s); assumption.
Qed.

(** The projection parameter of a query point on the line of the segment. *)
Lemma proj2_on_line (t vx vy : R) :
  (vx, vy) <> (0, 0) ->
  dot2 (mkVector2 (t * vx) (t * vy)) (mkVector2 vx vy)
  / dot2 (mkVector2 vx vy) (mkVector2 vx vy) = t.
Proof.
  intros Hv. unfold dot2; cbn [x2 y2].
  assert (vx * vx + vy * vy <> 0).
  { intros H0. apply Hv.
    assert (vx = 0) by nra. assert (vy = 0) by nra. congruence. }
  field. assumption.
Qed.

(** A query point beyond [E1] on the extension of the segment is answered
    by [E1], unless the segment is classified as near vertical and its
    endpoints have the same y. *)
Lemma pt_nearest_planar_beyond_endpt1 (t a0 a1 b0 b1 : R) :
  (a0, a1) <> (b0, b1) ->
  (near_vertical a0 b0 -> a1 <> b1) ->
  1 < t ->
  fst (pt_nearest_planar (a0 + t * (b0 - a0)) (a1 + t * (b1 - a1))
                         a0 a1 b0 b1) = (b0, b1).
Proof.
  intros Hne Hv Ht. unfold near_vertical in Hv.
  unfold pt_nearest_planar, proj2; cbv zeta; cbn [x2 y2].
  replace (a0 + t * (b0 - a0) - a0) with (t * (b0 - a0)) by ring.
  replace (a1 + t * (b1 - a1) - a1) with (t * (b1 - a1)) by ring.
  rewrite proj2_on_line.
  2:{ intros H. apply Hne. injection H as H1 H2. f_equal; lra. }
  unfold maxd, mind.
  destruct (Rlt_dec (absd (a0 - b0)) 1e-4) as [Hnv | Hnv].
  - specialize (Hv Hnv).
    assert (Hy : a1 < b1 \/ b1 < a1) by lra.
    destruct (Rge_dec a1 b1), (Rle_dec a1 b1).
    all: repeat match goal with
           | |- context [if ?c then _ else _] => destruct c
           end; cbn [fst]; try reflexivity; exfalso; destruct Hy; nra.
  - assert (Hx : a0 < b0 \/ b0 < a0).
    { destruct (Rtotal_order a0 b0) as [H | [-> | H]]; [lra | | lra].
      exfalso. apply Hnv. replace (b0 - b0) with 0 by ring.
      rewrite absd_pos_eq; lra. }
    destruct (Rge_dec a0 b0), (Rle_dec a0 b0).
    all: repeat match goal with
           | |- context [if ?c then _ else _] => destruct c
           end; cbn [fst]; try reflexivity; exfalso; destruct Hx; nra.
Qed.

(** On a segment classified as near vertical whose endpoints have the
    same y, the clamp never applies: the answer is the foot of the
    perpendicular on the whole line, wherever it falls. *)
Lemma pt_nearest_planar_flat (x y a0 a1 b0 : R) :
  near_vertical a0 b0 ->
  a0 <> b0 ->
  pt_nearest_planar x y a0 a1 b0 a1 = ((x, a1), absd (y - a1)).
Proof.
  intros Hnv Hx. unfold near_vertical in Hnv.
  unfold pt_nearest_planar, proj2, dot2; cbv zeta; cbn [x2 y2].
  replace (((x - a0) * (b0 - a0) + (y - a1) * (a1 - a1))
           / ((b0 - a0) * (b0 - a0) + (a1 - a1) * (a1 - a1)))
    with ((x - a0) / (b0 - a0)).
  2:{ assert (Hsq : 0 < (b0 - a0) * (b0 - a0)) by nra.
      field. split; lra. }
  replace ((x - a0) / (b0 - a0) * (a1 - a1) + a1) with a1 by ring.
  replace ((x - a0) / (b0 - a0) * (b0 - a0) + a0) with x by (field; lra).
  destruct (Rlt_dec (absd (a0 - b0)) 1e-4) as [_ | H]; [| contradiction].
  unfold maxd, mind.
  destruct (Rge_dec a1 a1); [| lra].
  destruct (Rle_dec a1 a1); [| lra].
  destruct (Rgt_dec a1 a1); [lra |].
  destruct (Rlt_dec a1 a1); [lra |].
  f_equal. unfold dist2; cbn [x2 y2].
  replace ((x - x) ^ 2 + (a1 - y) ^ 2) with (Rsqr (y - a1))
    by (unfold Rsqr; ring).
  rewrite sqrt_Rsqr_abs. symmetry. apply absd_Rabs.
Qed.

Lemma near_vertical_short : near_vertical 0 5e-5.
Proof.
  unfold near_vertical. rewrite absd_neg_eq; lra.
Qed.

Lemma off_segment_beyond (b q : R) :
  0 < b < q -> ~ on_segment (0, 0) (b, 0) (q, 0).
Proof.
  intros Hb (t & Ht & Hq & _). cbn [fst snd] in Hq. nra.
Qed.

(** The point returned is the clamp of the foot: on y when the segment
    is classified as near vertical, that is when |E0.x - E1.x| < 1e-4,
    and on x otherwise. *)
Lemma pt_nearest_planar_clamps (x y a0 a1 b0 b1 : R) :
  fst (pt_nearest_planar x y a0 a1 b0 b1)
  = (x2 (if Rlt_dec (Rabs (a0 - b0)) 1e-4
         then clamp_as_stated a1 b1 (y2 (foot x y a0 a1 b0 b1))
                (mkVector2 a0 a1) (mkVector2 b0 b1) (foot x y a0 a1 b0 b1)
         else clamp_as_stated a0 b0 (x2 (foot x y a0 a1 b0 b1))
                (mkVector2 a0 a1) (mkVector2 b0 b1) (foot x y a0 a1 b0 b1)),
     y2 (if Rlt_dec (Rabs (a0 - b0)) 1e-4
         then clamp_as_stated a1 b1 (y2 (foot x y a0 a1 b0 b1))
                (mkVector2 a0 a1) (mkVector2 b0 b1) (foot x y a0 a1 b0 b1)
         else clamp_as_stated a0 b0 (x2 (foot x y a0 a1 b0 b1))
                (mkVector2 a0 a1) (mkVector2 b0 b1) (foot x y a0 a1 b0 b1))).
Proof.
  unfold pt_nearest_planar, clamp_as_stated, foot; cbv zeta; cbn [x2 y2].
  rewrite absd_Rabs, !maxd_Rmax. unfold mind, Rmin.
  repeat match goal with
         | |- context [if ?c then _ else _] => destruct c
         end; reflexivity.
Qed.

(** On binary64 numbers the two runs below give the same answers as on
    real numbers: the unclamped foot (5, 0) at distance 3, and the query
    point (1, 0) itself. *)
Module Binary64Runs.

Import PrimFloat.

Lemma binary64_unclamped_foot :
  Binary64.pt_nearest_planar 5 3 0 0 Binary64.short 0
  = ((5%float, 0%float), 3%float).
Proof. vm_compute. reflexivity. Qed.

Lemma binary64_beyond_endpt1 :
  Binary64.pt_nearest_planar 1 0 0 0 Binary64.short 0
  = ((1%float, 0%float), 0%float).
Proof. vm_compute. reflexivity. Qed.

End Binary64Runs.

(** C1, evaluated on a short segment along the x axis: the endpoints
    E0 = (0, 0) and E1 = (0.00005, 0) are distinct, the query point is
    (5, 3), and [pt_nearest_planar] answers ((5, 0), 3).  The distance is
    the one to the point returned, but that point is not on the closed
    segment [E0, E1]. *)
Theorem pt_nearest_planar_off_segment :
  (0, 0) <> (5e-5, 0) /\
  pt_nearest_planar 5 3 0 0 5e-5 0 = ((5, 0), 3) /\
  ~ on_segment (0, 0) (5e-5, 0) (fst (pt_nearest_planar 5 3 0 0 5e-5 0)).
Proof.
  assert (E : pt_nearest_planar 5 3 0 0 5e-5 0 = ((5, 0), 3)).
  { rewrite pt_nearest_planar_flat.
    - rewrite absd_pos_eq by lra. f_equal. lra.
    - apply near_vertical_short.
    - lra. }
  split; [| split].
  - intros H. injection H as H. lra.
  - exact E.
  - rewrite E. cbn [fst]. apply off_segment_beyond. lra.
Qed.

(** C6, evaluated on the same short segment: the query point (1, 0) is
    E0 + 20000 (E1 - E0), beyond E1 on the extension of the segment from
    E0 = (0, 0) to E1 = (0.00005, 0); the segment is classified as near
    vertical, the test on y clamps nothing, and the point returned is the
    query point (1, 0), not E1. *)
Theorem pt_nearest_planar_beyond_short_flat :
  near_vertical 0 5e-5 /\
  (1, 0) = (0 + 20000 * (5e-5 - 0), 0 + 20000 * (0 - 0)) /\
  fst (pt_nearest_planar 1 0 0 0 5e-5 0) = (1, 0) /\
  fst (pt_nearest_planar 1 0 0 0 5e-5 0) <> (5e-5, 0).
Proof.
  assert (E : fst (pt_nearest_planar 1 0 0 0 5e-5 0) = (1, 0)).
  { rewrite pt_nearest_planar_flat; [reflexivity | | lra].
    apply near_vertical_short. }
  split; [apply near_vertical_short |].
  split; [f_equal; lra |].
  split; [exact E |].
  rewrite E. intros H. injection H as H. lra.
Qed.

(** ** [length] *)

Lemma seg_len_nonneg (p q : R * R) : 0 <= seg_len p q.
Proof. unfold seg_len. apply sqrt_pos. Qed.

(** The loop from the point at index [k] on, for a ring: it adds the
    lengths of the segments through the points left and of the closing
    segment back to the first point. *)
Lemma length_loop_ring (first : R * R) (tail : list (R * R)) :
  forall (rest pre : list (R * R)) (p : R * R) (d : R) (fuel : nat),
    first :: tail = pre ++ p :: rest ->
    (List.length rest + 2 <= fuel)%nat ->
    length_loop fuel (mkCoordString (first :: tail) true)
                (Z.of_nat (List.length (first :: tail)) + 1)
                (Z.of_nat (List.length pre)) d (fst p) (snd p)
    = Some (d + path_len p (rest ++ [first])).
Proof.
  set (cs := mkCoordString (first :: tail) true).
  set (n := Z.of_nat (List.length (first :: tail))).
  induction rest as [| q rest IH]; intros pre p d fuel Hl Hfuel.
  - assert (Hn : n = (Z.of_nat (List.length pre) + 1)%Z).
    { unfold n. rewrite Hl, length_app. cbn [List.length]. lia. }
    destruct fuel as [| [| fuel]]; [cbn in Hfuel; lia .. |].
    cbn [length_loop].
    replace (Z.of_nat (List.length pre) =? n + 1 - 1)%Z with false
      by (symmetry; apply Z.eqb_neq; lia).
    replace (Z.of_nat (List.length pre) + 1 =? n + 1 - 1)%Z with true
      by (symmetry; apply Z.eqb_eq; lia).
    assert (Hw : wrap_index cs (Z.of_nat (List.length pre) + 1) = 0%Z).
    { unfold wrap_index, len. cbn [ring coords cs]. fold n.
      replace (Z.of_nat (List.length pre) + 1 =? n)%Z with true
        by (symmetry; apply Z.eqb_eq; lia).
      reflexivity. }
    unfold getX, getY. rewrite Hw. cbn [Z.to_nat nth coords cs app path_len].
    unfold seg_len. f_equal. ring.
  - assert (Hn : n = (Z.of_nat (List.length pre) + 2
                      + Z.of_nat (List.length rest))%Z).
    { unfold n. rewrite Hl, length_app. cbn [List.length]. lia. }
    destruct fuel as [| fuel]; [cbn in Hfuel; lia |].
    cbn [length_loop].
    replace (Z.of_nat (List.length pre) =? n + 1 - 1)%Z with false
      by (symmetry; apply Z.eqb_neq; lia).
    assert (Hw : wrap_index cs (Z.of_nat (List.length pre) + 1)
                 = Z.of_nat (List.length (pre ++ [p]))).
    { unfold wrap_index, len. cbn [ring coords cs]. fold n.
      replace (Z.of_nat (List.length pre) + 1 =? n)%Z with false
        by (symmetry; apply Z.eqb_neq; lia).
      rewrite length_app. cbn [List.length andb]. lia. }
    assert (Hq : nth (List.length (pre ++ [p])) (first :: tail) (0, 0) = q).
    { rewrite Hl.
      replace (pre ++ p :: q :: rest) with ((pre ++ [p]) ++ q :: rest)
        by (rewrite <- app_assoc; reflexivity).
      apply nth_middle. }
    unfold getX, getY. rewrite Hw, Nat2Z.id. cbn [coords cs]. rewrite Hq.
    replace (Z.of_nat (List.length pre) + 1)%Z
      with (Z.of_nat (List.length (pre ++ [p])))
      by (rewrite length_app; cbn [List.length]; lia).
    rewrite (IH (pre ++ [p]) q).
    + cbn [app path_len]. unfold seg_len. f_equal. ring.
    + rewrite Hl, <- app_assoc. reflexivity.
    + cbn [List.length] in Hfuel. lia.
Qed.

Lemma length_ring_sum (cs : CoordString) (fuel : nat) :
  ring cs = true ->
  (1 <= len cs)%Z ->
  (len cs < Z.of_nat fuel)%Z ->
  length fuel cs = Some (ring_len (coords cs)).
Proof.
  destruct cs as [l r]. unfold len; cbn [ring coords].
  intros -> Hlen Hfuel.
  destruct l as [| first tail]; [cbn in Hlen; lia |].
  unfold length, len; cbn [ring coords].
  unfold getX, getY, wrap_index, len; cbn [ring coords].
  replace (0 =? Z.of_nat (List.length (first :: tail)))%Z with false
    by (symmetry; apply Z.eqb_neq; cbn [List.length]; lia).
  cbn [andb Z.to_nat nth].
  pose proof (length_loop_ring first tail tail [] first 0.0 fuel eq_refl)
    as E.
  change (Z.of_nat (List.length (@nil (R * R)))) with 0%Z in E.
  rewrite E.
  - cbn [ring_len]. f_equal. lra.
  - cbn [List.length] in Hfuel. lia.
Qed.

(** C9: for a ring-flagged coordinate sequence of n >= 1 points, [length]
    returns (given fuel for its n + 1 loop tests) the sum of the n segment
    lengths, the closing segment from the last point back to the first
    included; for four points this is the sum of the four segment
    lengths. *)
Theorem length_ring_closing (cs : CoordString) (fuel : nat) :
  ring cs = true ->
  (1 <= len cs)%Z ->
  (len cs < Z.of_nat fuel)%Z ->
  length fuel cs = Some (ring_len (coords cs)) /\
  (forall p0 p1 p2 p3 : R * R,
      coords cs = [p0; p1; p2; p3] ->
      length fuel cs
      = Some (seg_len p0 p1 + seg_len p1 p2 + seg_len p2 p3 + seg_len p3 p0)).
Proof.
  intros Hring Hlen Hfuel.
  pose proof (length_ring_sum cs fuel Hring Hlen Hfuel) as E.
  split; [exact E |].
  intros p0 p1 p2 p3 Hc. rewrite E, Hc. cbn [ring_len app path_len].
  f_equal. ring.
Qed.

(** The unit square: a ring of four points, and fuel for five tests. *)
Lemma length_ring_closing_witness :
  ring unit_square = true /\
  (1 <= len unit_square)%Z /\
  (len unit_square < Z.of_nat 5)%Z /\
  length 5 unit_square = Some (ring_len (coords unit_square)).
Proof.
  assert (H1 : ring unit_square = true) by reflexivity.
  assert (H2 : (1 <= len unit_square)%Z) by (cbv; discriminate).
  assert (H3 : (len unit_square < Z.of_nat 5)%Z) by reflexivity.
  repeat split; try assumption.
  exact (proj1 (length_ring_closing unit_square 5 H1 H2 H3)).
Defined.

(** ** [sph2cart] and [cart2sph] *)

Lemma inv_sqrt2_bounds : / 2 < 1 / sqrt 2 < 1.
Proof.
  assert (H0 : 0 < sqrt 2) by (apply sqrt_lt_R0; lra).
  assert (H2 : sqrt 2 * sqrt 2 = 2) by (apply sqrt_sqrt; lra).
  assert (H1 : 1 < sqrt 2) by nra.
  assert (H3 : sqrt 2 < 2) by nra.
  split.
  - apply Rmult_lt_reg_r with (sqrt 2); [assumption |].
    replace (1 / sqrt 2 * sqrt 2) with 1 by (field; lra). lra.
  - apply Rmult_lt_reg_r with (sqrt 2); [assumption |].
    replace (1 / sqrt 2 * sqrt 2) with 1 by (field; lra). lra.
Qed.

(** Radians to degrees: dividing a multiple of [PI] by [PI]. *)
Lemma div_PI (a c : R) : a = c * PI -> a / PI = c.
Proof.
  intros ->. field. pose proof PI_RGT_0. lra.
Qed.

Lemma sph2cart_0_m45 :
  sph2cart (mkVector2 0 (-45))
  = mkVector3 (1 / sqrt 2) 0 (- (1 / sqrt 2)).
Proof.
  unfold sph2cart; cbn [x2 y2].
  replace (PI * (90.0 - -45) / 180.0) with (3 * (PI / 4)) by lra.
  replace (PI * 0 / 180.0) with 0 by lra.
  rewrite sin_3PI4, cos_3PI4, cos_0, sin_0.
  f_equal; lra.
Qed.

(** The colatitude and the longitude of a point, in radians, as
    [sph2cart] forms them. *)
Lemma sph2cart_eq (lon lat : R) :
  sph2cart (mkVector2 lon lat)
  = mkVector3 (sin (PI * (90 - lat) / 180) * cos (PI * lon / 180))
              (sin (PI * (90 - lat) / 180) * sin (PI * lon / 180))
              (cos (PI * (90 - lat) / 180)).
Proof.
  unfold sph2cart; cbn [x2 y2].
  replace (PI * (90.0 - lat) / 180.0) with (PI * (90 - lat) / 180) by lra.
  replace (PI * lon / 180.0) with (PI * lon / 180) by lra.
  reflexivity.
Qed.

Lemma norm_xy (t l : R) :
  0 <= sin t ->
  sqrt (sin t * cos l * (sin t * cos l) + sin t * sin l * (sin t * sin l))
  = sin t.
Proof.
  intros Ht. pose proof (sin2_cos2 l) as H. unfold Rsqr in H.
  replace (sin t * cos l * (sin t * cos l) + sin t * sin l * (sin t * sin l))
    with (Rsqr (sin t)) by (unfold Rsqr; nra).
  apply sqrt_Rsqr. exact Ht.
Qed.

(** X29: south of the equator, where z < -1e-8, the atan formula of
    [cart2sph] answers the latitude plus 180 degrees. *)
Lemma cart2sph_sph2cart_lat_south (lon lat : R) :
  -90 < lat < 0 ->
  z3 (sph2cart (mkVector2 lon lat)) < -1e-8 ->
  y2 (cart2sph (sph2cart (mkVector2 lon lat))) = lat + 180.
Proof.
  intros Hlat. rewrite sph2cart_eq. cbn [z3]. intros Hz.
  pose proof PI_RGT_0 as HPI.
  set (t := PI * (90 - lat) / 180) in *.
  assert (Ht : PI / 2 < t < PI) by (unfold t; split; nra).
  assert (Hs : 0 < sin t) by (apply sin_gt_0; lra).
  unfold cart2sph; cbn [x3 y3 z3 y2].
  rewrite (absd_neg_eq (cos t)) by lra.
  destruct (Rgt_dec (- cos t) 1e-8) as [_ | H]; [| lra].
  rewrite norm_xy by lra.
  assert (E : sin t / cos t = tan (t - PI)).
  { unfold tan. replace t with (t - PI + PI) at 1 2 by ring.
    rewrite neg_sin, neg_cos. field.
    replace t with (t - PI + PI) in Hz by ring. rewrite neg_cos in Hz.
    lra. }
  rewrite E, atan_tan by lra.
  apply div_PI. unfold t. lra.
Qed.

(** X28: north of the equator and for longitudes between -90 and 90
    degrees the round trip is exact. *)
Lemma cart2sph_sph2cart_north_front (lon lat : R) :
  -90 <= lon <= 90 ->
  0 < lat < 90 ->
  cart2sph (sph2cart (mkVector2 lon lat)) = mkVector2 lon lat.
Proof.
  intros Hlon Hlat. rewrite sph2cart_eq.
  pose proof PI_RGT_0 as HPI.
  set (t := PI * (90 - lat) / 180).
  set (l := PI * lon / 180).
  assert (Ht : 0 < t < PI / 2) by (unfold t; split; nra).
  assert (Hl : - (PI / 2) <= l <= PI / 2) by (unfold l; split; nra).
  assert (Hs : 0 < sin t) by (apply sin_gt_0; lra).
  assert (Hc : 0 < cos t) by (apply cos_gt_0; lra).
  assert (Hcl : 0 <= cos l) by (apply cos_ge_0; lra).
  unfold cart2sph; cbn [x3 y3 z3].
  rewrite norm_xy by lra.
  f_equal; apply div_PI.
  - destruct (Rgt_dec _ 1e-8) as [Hx | Hx].
    + rewrite absd_pos_eq in Hx by nra.
      assert (Hcl' : 0 < cos l) by nra.
      unfold atan2. destruct (Rgt_dec _ 0) as [_ | H]; [| nra].
      replace (sin t * sin l / (sin t * cos l)) with (tan l)
        by (unfold tan; field; lra).
      rewrite atan_tan; [unfold l; lra |].
      destruct Hl as [[Hl1 | Hl1] [Hl2 | Hl2]]; try lra.
      * rewrite Hl2, cos_PI2 in Hcl'. lra.
      * rewrite <- Hl1, cos_neg, cos_PI2 in Hcl'. lra.
    + replace (sin t * sin l / sin t) with (sin l) by (field; lra).
      rewrite asin_sin by lra. unfold l. lra.
  - rewrite (absd_pos_eq (cos t)) by lra.
    destruct (Rgt_dec _ 1e-8) as [Hz | Hz].
    + change (sin t / cos t) with (tan t).
      rewrite atan_tan by lra. unfold t. lra.
    + pose proof (sin2_cos2 t) as H1. unfold Rsqr in H1.
      replace (sin t * cos l * (sin t * cos l)
               + sin t * sin l * (sin t * sin l) + cos t * cos t)
        with 1.
      2:{ pose proof (sin2_cos2 l) as H2. unfold Rsqr in H2. nra. }
      rewrite sqrt_1. replace (cos t / 1) with (cos t) by lra.
      rewrite acos_cos by lra. unfold t. lra.
Qed.

(** C5, evaluated at longitude 0 and latitude -45 degrees: the point is
    inside the stated ranges and is not a pole, and the round trip
    [cart2sph (sph2cart p)] yields latitude 135, which is 180 degrees away
    from the latitude of [p]. *)
Theorem cart2sph_sph2cart_south :
  -180 < 0 < 180 /\ -90 < -45 < 90 /\
  cart2sph (sph2cart (mkVector2 0 (-45))) = mkVector2 0 135.
Proof.
  split; [lra |]. split; [lra |].
  rewrite sph2cart_0_m45.
  pose proof inv_sqrt2_bounds as [Hlo Hhi].
  set (c := 1 / sqrt 2) in *.
  unfold cart2sph; cbn [x3 y3 z3].
  rewrite (absd_pos_eq c) by lra.
  rewrite (absd_neg_eq (- c)) by lra.
  destruct (Rgt_dec c 1e-8) as [_ | H]; [| lra].
  destruct (Rgt_dec (- - c) 1e-8) as [_ | H]; [| lra].
  unfold atan2. destruct (Rgt_dec c 0) as [_ | H]; [| lra].
  replace (0 / c) with 0 by (field; lra).
  replace (c * c + 0 * 0) with (c * c) by ring.
  rewrite sqrt_square by lra.
  replace (c / - c) with (- (1)) by (field; lra).
  rewrite atan_0, atan_opp, atan_1.
  f_equal; apply div_PI; lra.
Qed.

(** C7, counterexample: at x = -1e-8 (so |x| is equal to the threshold,
    not below it), y = 0, z = 1 the source takes the asin formula and
    answers longitude 0, where the wording of the claim takes atan2 and
    answers 180. *)
Lemma cart2sph_on_threshold :
  cart2sph (mkVector3 (-1e-8) 0 1)
  <> cart2sph_as_stated (mkVector3 (-1e-8) 0 1).
Proof.
  assert (HPI : 0 < PI) by apply PI_RGT_0.
  intros H. apply (f_equal x2) in H. revert H.
  unfold cart2sph, cart2sph_as_stated, lon_asin, lon_atan2, atan2;
    cbn [x2 x3 y3 z3].
  rewrite (absd_neg_eq (-1e-8)) by lra.
  destruct (Rgt_dec (- -1e-8) 1e-8) as [H | _]; [lra |].
  destruct (Rlt_dec (- -1e-8) 1e-8) as [H | _]; [lra |].
  destruct (Rgt_dec (-1e-8) 0) as [H | _]; [lra |].
  destruct (Rlt_dec (-1e-8) 0) as [_ | H]; [| lra].
  destruct (Rge_dec 0 0) as [_ | H]; [| lra].
  replace (0 / sqrt (-1e-8 * -1e-8 + 0 * 0)) with 0
    by (unfold Rdiv; ring).
  replace (0 / -1e-8) with 0 by lra.
  rewrite asin_0, atan_0.
  rewrite (div_PI ((0 + PI) * 180.0) 180) by lra.
  rewrite (div_PI (0 * 180.0) 0) by lra.
  lra.
Qed.

(** C7, amended: the 1e-8 thresholds are inclusive on the degenerate
    side.  The longitude is the asin formula when |x| <= 1e-8 and the
    atan2 formula when |x| > 1e-8; the latitude is the acos formula when
    |z| <= 1e-8 and the atan formula when |z| > 1e-8. *)
Theorem cart2sph_thresholds (a : Vector3) :
  x2 (cart2sph a)
  = (if Rle_dec (absd (x3 a)) 1e-8 then lon_asin a else lon_atan2 a) /\
  y2 (cart2sph a)
  = (if Rle_dec (absd (z3 a)) 1e-8 then lat_acos a else lat_atan a).
Proof.
  unfold cart2sph, lon_asin, lon_atan2, lat_acos, lat_atan; cbn [x2 y2].
  split.
  - destruct (Rgt_dec (absd (x3 a)) 1e-8), (Rle_dec (absd (x3 a)) 1e-8);
      solve [reflexivity | lra].
  - destruct (Rgt_dec (absd (z3 a)) 1e-8), (Rle_dec (absd (z3 a)) 1e-8);
      solve [reflexivity | lra].
Qed.

(** ** The bisection loop of [pt_nearest_proj] *)

Section BisectLoop.

Variables fwd inv : R -> R -> R -> R -> R * R * R.
Variables pt endpt0 : R * R.
Variable tol : R.
Variable maxiter : Z.
Variables az L : R.

Local Abbreviation body := (bisect_body fwd inv pt endpt0 az L).
Local Abbreviation steps := (bisect_steps fwd inv pt endpt0 az L).
Local Abbreviation loop := (bisect fwd inv pt endpt0 tol maxiter az L).
Local Abbreviation continuing :=
  (continues fwd inv pt endpt0 az L tol maxiter).
Local Abbreviation grad f :=
  (_along_distance_gradient fwd inv (fst endpt0) (snd endpt0)
                            (fst pt) (snd pt) az f (1e-7 * L)).

(** One run of the body, field by field. *)
Lemma bisect_body_eq (s : bisect_vars) (c : list grad_call) :
  let m := 0.5 * (x0 s + x1 s) in
  body s c
  = (if Rgt_dec (grad (m * L)) 0
     then mkBisectVars (x0 s) m m (absd (x1 s - m) * L) (i s + 1)
     else mkBisectVars m (x1 s) m (absd (x0 s - m) * L) (i s + 1),
     c ++ [mkGradCall (m * L) (1e-7 * L)]).
Proof.
  unfold bisect_body, gradient_call. cbv zeta.
  destruct (Rgt_dec _ 0); reflexivity.
Qed.

Lemma bisect_steps_S_r (k : nat) :
  forall s c,
    steps (S k) s c = body (fst (steps k s c)) (snd (steps k s c)).
Proof.
  induction k as [| k IH]; intros s c.
  - cbn [bisect_steps fst snd]. destruct (body s c); reflexivity.
  - cbn [bisect_steps] in *. destruct (body s c) as [s' c'].
    apply IH.
Qed.

Lemma bisect_unroll (k : nat) :
  forall fuel s c,
    (forall j, (j < k)%nat -> continuing s c j) ->
    loop (k + fuel)%nat s c
    = loop fuel (fst (steps k s c)) (snd (steps k s c)).
Proof.
  induction k as [| k IH]; intros fuel s c Hc.
  - reflexivity.
  - destruct (Hc 0%nat) as [Hdx Hi]; [lia |]. cbn [bisect_steps fst] in Hdx, Hi.
    cbn [Nat.add bisect bisect_steps].
    destruct (Rgt_dec (dx s) tol) as [_ | H]; [| contradiction].
    apply Z.eqb_neq in Hi. rewrite Hi.
    assert (Hc' : forall j, (j < k)%nat ->
               continuing (fst (body s c)) (snd (body s c)) j).
    { intros j Hj. specialize (Hc (S j) ltac:(lia)).
      unfold continues in *. cbn [bisect_steps] in Hc.
      destruct (body s c); exact Hc. }
    destruct (body s c) as [s' c']. apply IH. exact Hc'.
Qed.

(** Every result of the loop is reached after some number [k] of
    iterations at whose tests the loop continued; it is the return of
    the variables when the test [dx > tol] fails, and the exception
    when it holds and the counter equals [maxiter]. *)
Lemma bisect_inversion (fuel : nat) :
  forall s c r c',
    loop fuel s c = Some (r, c') ->
    exists k, (k < fuel)%nat /\
      (forall j, (j < k)%nat -> continuing s c j) /\
      c' = snd (steps k s c) /\
      ((r = Returned (fst (steps k s c)) /\
        ~ dx (fst (steps k s c)) > tol) \/
       (r = Raised exhausted /\
        dx (fst (steps k s c)) > tol /\
        i (fst (steps k s c)) = maxiter)).
Proof.
  induction fuel as [| fuel IH]; intros s c r c' H.
  - discriminate.
  - cbn [bisect] in H.
    destruct (Rgt_dec (dx s) tol) as [Hdx | Hdx].
    + destruct (i s =? maxiter)%Z eqn:Hi.
      * injection H as <- <-. exists 0%nat.
        split; [lia |]. split; [intros j Hj; lia |].
        split; [reflexivity |]. right.
        apply Z.eqb_eq in Hi. repeat split; assumption.
      * apply Z.eqb_neq in Hi.
        destruct (body s c) as [s' c''] eqn:Hb.
        destruct (IH _ _ _ _ H) as (k & Hk & Hc & Hcalls & Hr).
        exists (S k). split; [lia |].
        cbn [bisect_steps]. rewrite Hb.
        split; [| split; assumption].
        intros [| j] Hj.
        -- split; assumption.
        -- unfold continues. cbn [bisect_steps]. rewrite Hb.
           apply Hc. lia.
    + injection H as <- <-. exists 0%nat.
      split; [lia |]. split; [intros j Hj; lia |].
      split; [reflexivity |]. left. split; [reflexivity | assumption].
Qed.

(** The record of calls grows by one evaluation per iteration, at the
    midpoint of the bracket of that iteration, with step [1e-7 * L]. *)
Lemma bisect_steps_calls (k : nat) :
  forall s c,
    snd (steps k s c)
    = c ++ map (fun j =>
                  mkGradCall (0.5 * (x0 (fst (steps j s c))
                                     + x1 (fst (steps j s c))) * L)
                             (1e-7 * L))
               (seq 0 k).
Proof.
  induction k as [| k IH]; intros s c.
  - cbn. rewrite app_nil_r. reflexivity.
  - rewrite bisect_steps_S_r, seq_S, map_app, app_assoc, <- IH.
    pose proof (bisect_body_eq (fst (steps k s c)) (snd (steps k s c)))
      as E.
    cbv zeta in E. rewrite E. reflexivity.
Qed.

Lemma bisect_body_inv (j : nat) (s : bisect_vars) (c : list grad_call) :
  bisect_inv tol L j s -> bisect_inv tol L (S j) (fst (body s c)).
Proof.
  intros (Hi & H0 & H01 & H1 & Hw & _).
  pose proof (bisect_body_eq s c) as E. cbv zeta in E. rewrite E.
  assert (Hp : 0 < 2 ^ j) by (apply pow_lt; lra).
  assert (Hh : / 2 ^ S j = / 2 ^ j * / 2).
  { cbn [pow]. field. lra. }
  assert (Hpos : 0 < / 2 ^ j) by (apply Rinv_0_lt_compat; assumption).
  unfold bisect_inv, width_after.
  destruct (Rgt_dec _ 0); cbn [fst x0 x1 dx i]; rewrite Hh.
  - rewrite absd_pos_eq by lra.
    repeat split; try lra; [lia |].
    unfold Rdiv. rewrite Hh. nra.
  - rewrite absd_neg_eq by lra.
    repeat split; try lra; [lia |].
    unfold Rdiv. rewrite Hh. nra.
Qed.

Lemma bisect_init_inv : bisect_inv tol L 0 (bisect_init tol).
Proof.
  unfold bisect_inv, bisect_init, width_after; cbn [x0 x1 dx i pow].
  repeat split; lra.
Qed.

(** The invariant holds after any number of iterations. *)
Lemma bisect_steps_inv (c : list grad_call) (j : nat) :
  bisect_inv tol L j (fst (steps j (bisect_init tol) c)).
Proof.
  induction j as [| j IH].
  - apply bisect_init_inv.
  - rewrite bisect_steps_S_r. apply bisect_body_inv. exact IH.
Qed.

End BisectLoop.

(** ** Runs of the loop from its initial variables *)

Section BisectRuns.

Variables fwd inv : R -> R -> R -> R -> R * R * R.
Variables pt endpt0 : R * R.
Variable tol : R.
Variable maxiter : Z.
Variables az L : R.

Local Abbreviation steps := (bisect_steps fwd inv pt endpt0 az L).
Local Abbreviation loop := (bisect fwd inv pt endpt0 tol maxiter az L).
Local Abbreviation continuing :=
  (continues fwd inv pt endpt0 az L tol maxiter).

Lemma width_after_0 : width_after tol L 0 > tol.
Proof. unfold width_after. lra. Qed.

Lemma continues_init_iff (c : list grad_call) (j : nat) :
  continuing (bisect_init tol) c j
  <-> width_after tol L j > tol /\ Z.of_nat j <> maxiter.
Proof.
  unfold continues.
  destruct (bisect_steps_inv fwd inv pt endpt0 tol az L c j)
    as (Hi & _ & _ & _ & _ & Hdx).
  rewrite Hi, Hdx. reflexivity.
Qed.

(** After at least one iteration [dx] is the width of the bracket times
    [L]. *)
Lemma bisect_steps_width (c : list grad_call) (j : nat) :
  (1 <= j)%nat ->
  absd (x1 (fst (steps j (bisect_init tol) c))
        - x0 (fst (steps j (bisect_init tol) c))) * L
  = width_after tol L j.
Proof.
  intros Hj.
  destruct (bisect_steps_inv fwd inv pt endpt0 tol az L c j)
    as (_ & _ & H01 & _ & Hw & _).
  rewrite absd_pos_eq by lra. rewrite Hw.
  destruct j as [| j]; [lia |]. unfold width_after, Rdiv. ring.
Qed.

(** The loop returns after [n] iterations when [n] is the first test at
    which [dx > tol] fails and the counter has not met [maxiter] before. *)
Lemma bisect_init_returned (n : nat) (c : list grad_call) (fuel : nat) :
  (forall j, (j < n)%nat ->
             width_after tol L j > tol /\ Z.of_nat j <> maxiter) ->
  ~ width_after tol L n > tol ->
  (n < fuel)%nat ->
  loop fuel (bisect_init tol) c
  = Some (Returned (fst (steps n (bisect_init tol) c)),
          snd (steps n (bisect_init tol) c)).
Proof.
  intros Hc Hn Hfuel.
  replace fuel with (n + S (fuel - S n))%nat by lia.
  rewrite bisect_unroll
    by (intros j Hj; apply continues_init_iff; apply Hc; exact Hj).
  cbn [bisect].
  destruct (bisect_steps_inv fwd inv pt endpt0 tol az L c n)
    as (_ & _ & _ & _ & _ & Hdx).
  rewrite Hdx. destruct (Rgt_dec _ tol); [contradiction | reflexivity].
Qed.

(** The loop raises at the test after [maxiter] iterations when [dx > tol]
    held at every test up to that one. *)
Lemma bisect_init_raised (c : list grad_call) (fuel : nat) :
  (0 <= maxiter)%Z ->
  (forall j, (j <= Z.to_nat maxiter)%nat -> width_after tol L j > tol) ->
  (Z.to_nat maxiter < fuel)%nat ->
  loop fuel (bisect_init tol) c
  = Some (Raised exhausted,
          snd (steps (Z.to_nat maxiter) (bisect_init tol) c)).
Proof.
  intros Hm Hc Hfuel.
  replace fuel
    with (Z.to_nat maxiter + S (fuel - S (Z.to_nat maxiter)))%nat by lia.
  rewrite bisect_unroll.
  2:{ intros j Hj. apply continues_init_iff.
      split; [apply Hc; lia | lia]. }
  cbn [bisect].
  destruct (bisect_steps_inv fwd inv pt endpt0 tol az L c (Z.to_nat maxiter))
    as (Hi & _ & _ & _ & _ & Hdx).
  rewrite Hdx, Hi.
  destruct (Rgt_dec _ tol) as [_ | H]; [| exfalso; apply H, Hc; lia].
  replace (Z.of_nat (Z.to_nat maxiter) =? maxiter)%Z with true
    by (symmetry; apply Z.eqb_eq; lia).
  reflexivity.
Qed.

(** What a result of the loop from its initial variables tells. *)
Lemma bisect_init_inversion (fuel : nat) (c : list grad_call)
      (r : outcome bisect_vars) (c' : list grad_call) :
  loop fuel (bisect_init tol) c = Some (r, c') ->
  exists k, (k < fuel)%nat /\
    (forall j, (j < k)%nat ->
               width_after tol L j > tol /\ Z.of_nat j <> maxiter) /\
    c' = snd (steps k (bisect_init tol) c) /\
    ((r = Returned (fst (steps k (bisect_init tol) c)) /\
      ~ width_after tol L k > tol) \/
     (r = Raised exhausted /\
      width_after tol L k > tol /\ Z.of_nat k = maxiter)).
Proof.
  intros H.
  destruct (bisect_inversion _ _ _ _ _ _ _ _ _ _ _ _ _ H)
    as (k & Hk & Hc & Hcalls & Hr).
  exists k. split; [exact Hk |].
  split; [intros j Hj; apply (proj1 (continues_init_iff c j)), Hc, Hj |].
  split; [exact Hcalls |].
  destruct (bisect_steps_inv fwd inv pt endpt0 tol az L c k)
    as (Hi & _ & _ & _ & _ & Hdx).
  rewrite Hdx, Hi in Hr. exact Hr.
Qed.

(** With a count [maxiter >= 0] the loop ends within [maxiter + 1] tests
    of its condition. *)
Lemma bisect_total (fuel : nat) :
  forall s c,
    (0 <= i s <= maxiter)%Z ->
    (maxiter - i s < Z.of_nat fuel)%Z ->
    exists r c', loop fuel s c = Some (r, c').
Proof.
  induction fuel as [| fuel IH]; intros s c Hi Hfuel; [lia |].
  cbn [bisect].
  destruct (Rgt_dec (dx s) tol); [| eauto].
  destruct (i s =? maxiter)%Z eqn:E; [eauto |].
  apply Z.eqb_neq in E.
  pose proof (bisect_body_eq fwd inv pt endpt0 az L s c) as Hb.
  cbv zeta in Hb. rewrite Hb.
  destruct (Rgt_dec _ 0); apply IH; cbn [i]; lia.
Qed.

End BisectRuns.

(** ** [pt_nearest_proj] *)

Section Search.

Variables fwd inv : R -> R -> R -> R -> R * R * R.
Variables pt endpt0 endpt1 : R * R.

Local Abbreviation az := (seg_az inv endpt0 endpt1).
Local Abbreviation L := (seg_L inv endpt0 endpt1).
Local Abbreviation steps := (bisect_steps fwd inv pt endpt0 az L).

(** [pt_nearest_proj] in terms of the length and azimuth of the segment,
    of the functional and of the two gradients of the endpoint test. *)
Lemma pt_nearest_proj_eq (fuel : nat) (tol : R) (maxiter : Z) :
  pt_nearest_proj fwd inv fuel pt endpt0 endpt1 tol maxiter
  = if Rgt_dec (grad_at fwd inv pt endpt0 endpt1 0) 0 then
      Some (Returned (endpt0, along fwd inv pt endpt0 endpt1 0),
            endpoint_calls L)
    else if Rlt_dec (grad_at fwd inv pt endpt0 endpt1 L) 0 then
      Some (Returned (endpt1, along fwd inv pt endpt0 endpt1 L),
            endpoint_calls L)
    else
      match bisect fwd inv pt endpt0 tol maxiter az L fuel
                   (bisect_init tol) (endpoint_calls L) with
      | None => None
      | Some (Raised e, calls) => Some (Raised e, calls)
      | Some (Returned s, calls) =>
          Some (Returned
                  ((fst (fst (fwd (fst endpt0) (snd endpt0) az (xm s * L))),
                    snd (fst (fwd (fst endpt0) (snd endpt0) az (xm s * L)))),
                   along fwd inv pt endpt0 endpt1 (xm s * L)),
                calls)
      end.
Proof.
  unfold pt_nearest_proj, grad_at, along, seg_az, seg_L, endpoint_calls,
    gradient_call.
  destruct (inv (fst endpt0) (snd endpt0) (fst endpt1) (snd endpt1))
    as [[a a2] l].
  cbn [fst snd app].
  destruct (Rgt_dec _ 0); [reflexivity |].
  destruct (Rlt_dec _ 0); [reflexivity |].
  destruct (bisect _ _ _ _ _ _ _ _ _ _ _) as [[[s | e] calls] |];
    try reflexivity.
  destruct (fwd (fst endpt0) (snd endpt0) a (xm s * l)) as [[xn yn] b].
  reflexivity.
Qed.

(** With a count [maxiter >= 0], [pt_nearest_proj] ends, with a value or
    with the exception, given fuel for [maxiter + 1] loop tests. *)
Lemma pt_nearest_proj_total (fuel : nat) (tol : R) (maxiter : Z) :
  (0 <= maxiter)%Z ->
  (maxiter < Z.of_nat fuel)%Z ->
  exists r calls,
    pt_nearest_proj fwd inv fuel pt endpt0 endpt1 tol maxiter
    = Some (r, calls).
Proof.
  intros Hm Hfuel. rewrite pt_nearest_proj_eq.
  destruct (Rgt_dec _ 0); [eauto |].
  destruct (Rlt_dec _ 0); [eauto |].
  destruct (bisect_total fwd inv pt endpt0 tol maxiter az L fuel
              (bisect_init tol) (endpoint_calls L))
    as (r & c & E); [cbn [i bisect_init]; lia .. |].
  rewrite E. destruct r; eauto.
Qed.

(** C4: when the gradient at f = 0 is positive the search returns
    (E0, along-distance at 0) at once; otherwise, when the gradient at
    f = L is negative, it returns (E1, along-distance at L) at once.  In
    both cases the only gradient evaluations are the two of the endpoint
    test (no bisection iteration is run, no fuel is needed), and the
    result is a value, never ConvergenceError, whatever [tol] and
    [maxiter] are. *)
Theorem pt_nearest_proj_endpoint_short_circuit
        (fuel : nat) (tol : R) (maxiter : Z) :
  (grad_at fwd inv pt endpt0 endpt1 0 > 0 ->
   pt_nearest_proj fwd inv fuel pt endpt0 endpt1 tol maxiter
   = Some (Returned (endpt0, along fwd inv pt endpt0 endpt1 0),
           endpoint_calls L)) /\
  (~ grad_at fwd inv pt endpt0 endpt1 0 > 0 ->
   grad_at fwd inv pt endpt0 endpt1 L < 0 ->
   pt_nearest_proj fwd inv fuel pt endpt0 endpt1 tol maxiter
   = Some (Returned (endpt1, along fwd inv pt endpt0 endpt1 L),
           endpoint_calls L)).
Proof.
  split.
  - intros H0. rewrite pt_nearest_proj_eq.
    destruct (Rgt_dec _ 0); [reflexivity | contradiction].
  - intros H0 H1. rewrite pt_nearest_proj_eq.
    destruct (Rgt_dec _ 0); [contradiction |].
    destruct (Rlt_dec _ 0); [reflexivity | contradiction].
Qed.

End Search.

(** ** The geodetic pair of the x axis *)

Lemma line_seg_L (e0 e1 : R * R) :
  seg_L line_inv e0 e1 = absd (fst e1 - fst e0).
Proof. reflexivity. Qed.

Lemma line_seg_az (e0 e1 : R * R) : seg_az line_inv e0 e1 = 0.
Proof. reflexivity. Qed.

Lemma line_along_distance (x0 y0 xp yp az f : R) :
  _along_distance line_fwd line_inv x0 y0 xp yp az f = absd (xp - (x0 + f)).
Proof. reflexivity. Qed.

(** On the x axis the functional decreases with slope -1 before the
    query point and increases with slope 1 after it. *)
Lemma line_gradient_before (x0 y0 xp yp az f h : R) :
  0 < h -> x0 + f + h <= xp ->
  _along_distance_gradient line_fwd line_inv x0 y0 xp yp az f h = -1.
Proof.
  intros Hh Hf. unfold _along_distance_gradient.
  rewrite !line_along_distance.
  rewrite !absd_pos_eq by lra. field. lra.
Qed.

Lemma line_gradient_after (x0 y0 xp yp az f h : R) :
  0 < h -> xp <= x0 + f ->
  _along_distance_gradient line_fwd line_inv x0 y0 xp yp az f h = 1.
Proof.
  intros Hh Hf. unfold _along_distance_gradient.
  rewrite !line_along_distance.
  rewrite !absd_neg_eq by lra. field. lra.
Qed.

Lemma line_unit_L : seg_L line_inv (0, 0) (1, 0) = 1.
Proof. rewrite line_seg_L. cbn [fst]. rewrite absd_pos_eq; lra. Qed.

(** The gradients on the unit segment of the x axis, for a query point
    of abscissa [xp] on the axis. *)
Lemma line_unit_grad_before (xp f : R) :
  f + 1e-7 <= xp -> grad_at line_fwd line_inv (xp, 0) (0, 0) (1, 0) f = -1.
Proof.
  intros H. unfold grad_at. rewrite line_unit_L. cbn [fst snd].
  apply line_gradient_before; lra.
Qed.

Lemma line_unit_grad_after (xp f : R) :
  xp <= f -> grad_at line_fwd line_inv (xp, 0) (0, 0) (1, 0) f = 1.
Proof.
  intros H. unfold grad_at. rewrite line_unit_L. cbn [fst snd].
  apply line_gradient_after; lra.
Qed.

(** On the unit segment of the x axis: the query point (-1, 0) is
    answered by E0 and the query point (2, 0) by E1, with no fuel. *)
Lemma pt_nearest_proj_endpoint_short_circuit_witness :
  (grad_at line_fwd line_inv (-1, 0) (0, 0) (1, 0) 0 > 0 /\
   pt_nearest_proj line_fwd line_inv 0 (-1, 0) (0, 0) (1, 0) 0.1 0
   = Some (Returned ((0, 0), along line_fwd line_inv (-1, 0) (0, 0) (1, 0) 0),
           endpoint_calls (seg_L line_inv (0, 0) (1, 0)))) /\
  (~ grad_at line_fwd line_inv (2, 0) (0, 0) (1, 0) 0 > 0 /\
   grad_at line_fwd line_inv (2, 0) (0, 0) (1, 0)
           (seg_L line_inv (0, 0) (1, 0)) < 0 /\
   pt_nearest_proj line_fwd line_inv 0 (2, 0) (0, 0) (1, 0) 0.1 0
   = Some (Returned ((1, 0),
                     along line_fwd line_inv (2, 0) (0, 0) (1, 0)
                           (seg_L line_inv (0, 0) (1, 0))),
           endpoint_calls (seg_L line_inv (0, 0) (1, 0)))).
Proof.
  assert (Ha : grad_at line_fwd line_inv (-1, 0) (0, 0) (1, 0) 0 > 0).
  { rewrite line_unit_grad_after; lra. }
  assert (Hb : ~ grad_at line_fwd line_inv (2, 0) (0, 0) (1, 0) 0 > 0).
  { rewrite line_unit_grad_before; lra. }
  assert (Hc : grad_at line_fwd line_inv (2, 0) (0, 0) (1, 0)
                       (seg_L line_inv (0, 0) (1, 0)) < 0).
  { rewrite line_unit_L, line_unit_grad_before; lra. }
  split.
  - split; [exact Ha |].
    exact (proj1 (pt_nearest_proj_endpoint_short_circuit
                    line_fwd line_inv (-1, 0) (0, 0) (1, 0) 0 0.1 0) Ha).
  - split; [exact Hb |]. split; [exact Hc |].
    apply (pt_nearest_proj_endpoint_short_circuit
             line_fwd line_inv (2, 0) (0, 0) (1, 0) 0 0.1 0); assumption.
Defined.

(** ** The number of iterations *)

Lemma Zceil_le_iff (r : R) (k : Z) : (Zceil r <= k)%Z <-> r <= IZR k.
Proof.
  pose proof (Zceil_bound r) as [Hlo Hhi].
  split; intros H.
  - apply IZR_le in H. lra.
  - apply Z.lt_succ_r, lt_IZR. rewrite succ_IZR. lra.
Qed.

Lemma ln_2_pos : 0 < ln 2.
Proof. pose proof ln_lt_2. lra. Qed.

Lemma log2_le_iff (r : R) (j : nat) : 0 < r -> log2 r <= INR j <-> r <= 2 ^ j.
Proof.
  intros Hr. pose proof ln_2_pos as H2.
  assert (Hp : 0 < 2 ^ j) by (apply pow_lt; lra).
  assert (E : INR j = ln (2 ^ j) / ln 2).
  { rewrite ln_pow by lra. field. lra. }
  unfold log2. rewrite E. split; intros H.
  - destruct (Rle_or_lt r (2 ^ j)) as [Hle | Hlt]; [exact Hle |].
    apply ln_increasing in Hlt; [| assumption].
    apply Rmult_le_compat_r with (r := ln 2) in H; [| lra].
    unfold Rdiv in H. rewrite !Rmult_assoc, Rinv_l, !Rmult_1_r in H; lra.
  - apply Rmult_le_compat_r; [left; apply Rinv_0_lt_compat; assumption |].
    destruct H as [Hlt | ->]; [| lra].
    left. apply ln_increasing; assumption.
Qed.

(** After at least one iteration the test [dx > tol] fails exactly from
    iteration ceil (log2 (L / tol)) on. *)
Lemma width_after_le_iff (tol L : R) (j : nat) :
  0 < tol -> 0 < L -> (1 <= j)%nat ->
  ~ width_after tol L j > tol <-> (Zceil (log2 (L / tol)) <= Z.of_nat j)%Z.
Proof.
  intros Ht HL Hj.
  assert (Hp : 0 < 2 ^ j) by (apply pow_lt; lra).
  assert (Hr : 0 < L / tol) by (apply Rdiv_lt_0_compat; assumption).
  rewrite Zceil_le_iff, <- INR_IZR_INZ, log2_le_iff by assumption.
  destruct j as [| j]; [lia |]. unfold width_after.
  assert (E : L / 2 ^ S j - tol = (L / tol - 2 ^ S j) * (tol / 2 ^ S j))
    by (field; lra).
  assert (Hq : 0 < tol / 2 ^ S j) by (apply Rdiv_lt_0_compat; assumption).
  split; intros H.
  - apply Rnot_gt_le in H. nra.
  - apply Rle_not_gt. nra.
Qed.

Lemma iterations_needed_first (tol L : R) :
  0 < tol -> 0 < L ->
  (forall j, (j < Z.to_nat (iterations_needed tol L))%nat ->
             width_after tol L j > tol) /\
  ~ width_after tol L (Z.to_nat (iterations_needed tol L)) > tol.
Proof.
  intros Ht HL. unfold iterations_needed.
  set (k := Zceil (log2 (L / tol))). split.
  - intros [| j] Hj; [apply width_after_0 |].
    destruct (Rgt_dec (width_after tol L (S j)) tol) as [H | H];
      [exact H |].
    apply width_after_le_iff in H; [| assumption | assumption | lia].
    fold k in H. lia.
  - apply width_after_le_iff; [assumption | assumption | lia |].
    fold k. lia.
Qed.

(** ** The claims on the search *)

Section SearchClaims.

Variables fwd inv : R -> R -> R -> R -> R * R * R.
Variables pt endpt0 endpt1 : R * R.

Local Abbreviation az := (seg_az inv endpt0 endpt1).
Local Abbreviation L := (seg_L inv endpt0 endpt1).
Local Abbreviation steps := (bisect_steps fwd inv pt endpt0 az L).
Local Abbreviation search := (pt_nearest_proj fwd inv).


Lemma pt_nearest_proj_raises (fuel : nat) (tol : R) (maxiter : Z) :
  (0 <= maxiter)%Z ->
  enters_loop fwd inv pt endpt0 endpt1 ->
  (forall j, (j <= Z.to_nat maxiter)%nat -> width_after tol L j > tol) ->
  (Z.to_nat maxiter < fuel)%nat ->
  search fuel pt endpt0 endpt1 tol maxiter
  = Some (Raised exhausted,
          snd (steps (Z.to_nat maxiter) (bisect_init tol) (endpoint_calls L))).
Proof.
  intros Hm [H0 H1] Hc Hfuel. rewrite pt_nearest_proj_eq.
  destruct (Rgt_dec _ 0); [contradiction |].
  destruct (Rlt_dec _ 0); [contradiction |].
  rewrite bisect_init_raised by assumption. reflexivity.
Qed.




Local Abbreviation body := (bisect_body fwd inv pt endpt0 az L).
Local Abbreviation st tol j :=
  (fst (steps j (bisect_init tol) (endpoint_calls L))).

Local Abbreviation bisect_value :=
  (bisect_value fwd inv pt endpt0 endpt1).

Lemma pt_nearest_proj_returned_inv (fuel : nat) (tol : R) (maxiter : Z)
      (v : (R * R) * R) (calls : list grad_call) :
  enters_loop fwd inv pt endpt0 endpt1 ->
  search fuel pt endpt0 endpt1 tol maxiter = Some (Returned v, calls) ->
  exists n, (1 <= n < fuel)%nat /\
    (forall j, (j < n)%nat ->
               width_after tol L j > tol /\ Z.of_nat j <> maxiter) /\
    ~ width_after tol L n > tol /\
    v = bisect_value (st tol n) /\
    calls = snd (steps n (bisect_init tol) (endpoint_calls L)).
Proof.
  intros [H0 H1]. rewrite pt_nearest_proj_eq.
  destruct (Rgt_dec _ 0); [contradiction |].
  destruct (Rlt_dec _ 0); [contradiction |].
  destruct (bisect _ _ _ _ _ _ _ _ _ _ _) as [[r c] |] eqn:E;
    [| discriminate].
  apply bisect_init_inversion in E.
  destruct E as (k & Hk & Hc & -> & [[-> Hw] | (-> & _)]);
    [| discriminate].
  intros H. injection H as <- <-. exists k.
  split; [split; [| exact Hk] |].
  { destruct k as [| k]; [| lia]. exfalso. apply Hw, width_after_0. }
  split; [exact Hc |]. split; [exact Hw |]. split; reflexivity.
Qed.

Lemma pt_nearest_proj_returns (n fuel : nat) (tol : R) (maxiter : Z) :
  enters_loop fwd inv pt endpt0 endpt1 ->
  (forall j, (j < n)%nat ->
             width_after tol L j > tol /\ Z.of_nat j <> maxiter) ->
  ~ width_after tol L n > tol ->
  (n < fuel)%nat ->
  search fuel pt endpt0 endpt1 tol maxiter
  = Some (Returned (bisect_value (st tol n)),
          snd (steps n (bisect_init tol) (endpoint_calls L))).
Proof.
  intros [H0 H1] Hc Hn Hfuel. rewrite pt_nearest_proj_eq.
  destruct (Rgt_dec _ 0); [contradiction |].
  destruct (Rlt_dec _ 0); [contradiction |].
  rewrite (bisect_init_returned _ _ _ _ _ _ _ _ n) by assumption.
  reflexivity.
Qed.


(** C10, amended: after j iterations the counter is j, 0 <= x0 < x1 <= 1
    and x1 - x0 = 2^(-j) (every iteration halves the bracket), and the
    [dx] computed in an iteration is the width of the bracket after the
    update times L.  Hence for tol > 0 and L > 0 the loop returns after
    exactly max(1, ceil (log2 (L / tol))) iterations, when [maxiter] is
    at least that number: one iteration is always run, also when
    L <= tol. *)
Theorem bisect_halving_count (tol : R) (maxiter : Z) (c : list grad_call) :
  (forall j, bisect_inv tol L j (fst (steps j (bisect_init tol) c))) /\
  (forall j,
      dx (fst (steps (S j) (bisect_init tol) c))
      = (x1 (fst (steps (S j) (bisect_init tol) c))
         - x0 (fst (steps (S j) (bisect_init tol) c))) * L) /\
  (0 < tol -> 0 < L ->
   (iterations_needed tol L <= maxiter)%Z ->
   forall fuel, (iterations_needed tol L < Z.of_nat fuel)%Z ->
     exists s c',
       bisect fwd inv pt endpt0 tol maxiter az L fuel (bisect_init tol) c
       = Some (Returned s, c') /\
       i s = iterations_needed tol L /\
       (s, c') = steps (Z.to_nat (iterations_needed tol L))
                       (bisect_init tol) c).
Proof.
  split; [| split].
  - intros j. apply bisect_steps_inv.
  - intros j.
    destruct (bisect_steps_inv fwd inv pt endpt0 tol az L c (S j))
      as (_ & _ & _ & _ & Hw & Hdx).
    rewrite Hdx, Hw. unfold width_after, Rdiv. ring.
  - intros Ht HL Hm fuel Hfuel.
    destruct (iterations_needed_first tol L Ht HL) as [Hc Hn].
    assert (H1 : (1 <= iterations_needed tol L)%Z)
      by (unfold iterations_needed; lia).
    set (n := Z.to_nat (iterations_needed tol L)) in *.
    exists (fst (steps n (bisect_init tol) c)),
           (snd (steps n (bisect_init tol) c)).
    split; [| split].
    + apply bisect_init_returned; [| exact Hn | lia].
      intros j Hj. split; [apply Hc; exact Hj | lia].
    + destruct (bisect_steps_inv fwd inv pt endpt0 tol az L c n)
        as (Hi & _).
      rewrite Hi. unfold n. lia.
    + destruct (steps n (bisect_init tol) c); reflexivity.
Qed.

End SearchClaims.

(** ** Runs on the unit segment of the x axis *)

(** Equal numbers inside equal values. *)
Ltac same_numbers := repeat (f_equal; try lra).

Lemma line_enters_loop (xp : R) :
  1e-7 <= xp <= 1 ->
  enters_loop line_fwd line_inv (xp, 0) (0, 0) (1, 0).
Proof.
  intros H. unfold enters_loop.
  rewrite line_unit_L, line_unit_grad_before, line_unit_grad_after by lra.
  lra.
Qed.

(** The first iteration for a query point in the lower half: the
    gradient at the midpoint is positive and [x1] moves to it. *)
Lemma line_first_step (xp tol : R) (c : list grad_call) :
  xp <= 0.5 ->
  bisect_steps line_fwd line_inv (xp, 0) (0, 0) 0 1 1 (bisect_init tol) c
  = (mkBisectVars 0 0.5 0.5 0.5 1, c ++ [mkGradCall 0.5 1e-7]).
Proof.
  intros H. cbn [bisect_steps]. rewrite bisect_body_eq. cbv zeta.
  cbn [fst snd bisect_init x0 x1 i].
  rewrite line_gradient_after by lra.
  destruct (Rgt_dec 1 0) as [_ | H1]; [| lra].
  rewrite absd_pos_eq by lra.
  same_numbers.
Qed.

(** A run that returns after one iteration: query point (0.3, 0), any
    tolerance of at least 0.5, at most five iterations. *)
Lemma line_run_one_iteration (tol : R) :
  0.5 <= tol ->
  pt_nearest_proj line_fwd line_inv 2 (0.3, 0) (0, 0) (1, 0) tol 5
  = Some (Returned ((0.5, 0), 0.2),
          [mkGradCall 0 1e-7; mkGradCall 1 1e-7; mkGradCall 0.5 1e-7]).
Proof.
  intros Ht.
  rewrite (pt_nearest_proj_returns line_fwd line_inv _ _ _ 1).
  - unfold bisect_value, along.
    rewrite line_unit_L, line_seg_az, line_first_step by lra.
    cbn [fst snd xm line_fwd endpoint_calls app].
    rewrite line_along_distance, absd_neg_eq by lra.
    same_numbers.
  - apply line_enters_loop. lra.
  - intros j Hj. replace j with 0%nat by lia.
    split; [apply width_after_0 | discriminate].
  - rewrite line_unit_L. unfold width_after. cbn [pow]. lra.
  - lia.
Qed.

Lemma log2_pow2 (k : nat) : log2 (2 ^ k) = INR k.
Proof.
  unfold log2. rewrite ln_pow by lra. field.
  pose proof ln_2_pos. lra.
Qed.

Lemma Zceil_IZR (k : Z) : Zceil (IZR k) = k.
Proof. apply Zceil_eq. lra. Qed.

Lemma iterations_needed_quarter :
  iterations_needed 0.25 (seg_L line_inv (0, 0) (1, 0)) = 2%Z.
Proof.
  unfold iterations_needed. rewrite line_unit_L.
  replace (1 / 0.25) with (2 ^ 2) by (cbn [pow]; lra).
  rewrite log2_pow2, INR_IZR_INZ, Zceil_IZR. reflexivity.
Qed.

Lemma Zceil_log2_unit :
  Zceil (log2 (seg_L line_inv (0, 0) (1, 0) / 1)) = 0%Z.
Proof.
  rewrite line_unit_L. replace (1 / 1) with (2 ^ 0) by (cbn [pow]; lra).
  rewrite log2_pow2, INR_IZR_INZ, Zceil_IZR. reflexivity.
Qed.





(** C10, counterexample: on the unit segment of the x axis with tol = 1
    (so tol > 0, L = 1 > 0 and ceil (log2 (L / tol)) = 0) the loop returns
    after one iteration, not after none. *)
Lemma bisect_one_iteration_when_short :
  0 < 1 /\ 0 < seg_L line_inv (0, 0) (1, 0) /\
  Zceil (log2 (seg_L line_inv (0, 0) (1, 0) / 1)) = 0%Z /\
  bisect line_fwd line_inv (0.3, 0) (0, 0) 1 5
         (seg_az line_inv (0, 0) (1, 0)) (seg_L line_inv (0, 0) (1, 0))
         2 (bisect_init 1) []
  = Some (Returned (mkBisectVars 0 0.5 0.5 0.5 1), [mkGradCall 0.5 1e-7]) /\
  i (mkBisectVars 0 0.5 0.5 0.5 1)
  <> Zceil (log2 (seg_L line_inv (0, 0) (1, 0) / 1)).
Proof.
  split; [lra |]. split; [rewrite line_unit_L; lra |].
  split; [exact Zceil_log2_unit |]. split.
  - rewrite (bisect_init_returned _ _ _ _ _ _ _ _ 1).
    + rewrite line_unit_L, line_seg_az, line_first_step by lra.
      reflexivity.
    + intros j Hj. replace j with 0%nat by lia.
      split; [apply width_after_0 | discriminate].
    + rewrite line_unit_L. unfold width_after. cbn [pow]. lra.
    + lia.
  - rewrite Zceil_log2_unit. cbn [i]. discriminate.
Qed.

(** On the unit segment of the x axis with tol = 0.25: the loop returns
    after max(1, ceil (log2 4)) = 2 iterations. *)
Lemma bisect_halving_count_witness :
  0 < 0.25 /\ 0 < seg_L line_inv (0, 0) (1, 0) /\
  (iterations_needed 0.25 (seg_L line_inv (0, 0) (1, 0))%R <= 5)%Z /\
  (iterations_needed 0.25 (seg_L line_inv (0, 0) (1, 0))%R < Z.of_nat 6)%Z /\
  exists s c',
    bisect line_fwd line_inv (0.3, 0) (0, 0) 0.25 5
           (seg_az line_inv (0, 0) (1, 0)) (seg_L line_inv (0, 0) (1, 0))
           6 (bisect_init 0.25) []
    = Some (Returned s, c') /\
    i s = 2%Z.
Proof.
  assert (Ht : 0 < 0.25) by lra.
  assert (HL : 0 < seg_L line_inv (0, 0) (1, 0))
    by (rewrite line_unit_L; lra).
  assert (Hm : (iterations_needed 0.25 (seg_L line_inv (0, 0) (1, 0))%R
                <= 5)%Z)
    by (rewrite iterations_needed_quarter; lia).
  assert (Hf : (iterations_needed 0.25 (seg_L line_inv (0, 0) (1, 0))%R
                < Z.of_nat 6)%Z)
    by (rewrite iterations_needed_quarter; lia).
  repeat (split; [assumption |]).
  destruct (bisect_halving_count line_fwd line_inv (0.3, 0) (0, 0) (1, 0)
              0.25 5 []) as (_ & _ & Hcount).
  destruct (Hcount Ht HL Hm 6%nat Hf) as (s & c' & Hrun & Hi & _).
  exists s, c'. split; [exact Hrun |].
  rewrite Hi. apply iterations_needed_quarter.
Defined.

(** * Further properties *)

(** ** [pt_nearest_planar] as a clamped projection *)

Lemma clamp01_below (s : R) : s < 0 -> clamp01 s = 0.
Proof. intros H. unfold clamp01. destruct (Rlt_dec s 0); lra. Qed.

Lemma clamp01_above (s : R) : 1 < s -> clamp01 s = 1.
Proof.
  intros H. unfold clamp01.
  destruct (Rlt_dec s 0); [lra |]. destruct (Rgt_dec s 1); lra.
Qed.

Lemma clamp01_inside (s : R) : 0 <= s <= 1 -> clamp01 s = s.
Proof.
  intros H. unfold clamp01.
  destruct (Rlt_dec s 0); [lra |]. destruct (Rgt_dec s 1); lra.
Qed.

Lemma clamp01_range (s : R) : 0 <= clamp01 s <= 1.
Proof.
  unfold clamp01.
  destruct (Rlt_dec s 0); [lra |]. destruct (Rgt_dec s 1); lra.
Qed.

(** No parameter of [0, 1] is nearer to [s] than its clamp. *)
Lemma clamp01_nearest (s t : R) :
  0 <= t <= 1 -> (clamp01 s - s) * (clamp01 s - s) <= (t - s) * (t - s).
Proof.
  intros Ht. unfold clamp01.
  destruct (Rlt_dec s 0).
  { assert (0 <= t * (t - 2 * s)) by (apply Rmult_le_pos; lra). nra. }
  destruct (Rgt_dec s 1).
  { assert (0 <= (1 - t) * (2 * s - 1 - t)) by (apply Rmult_le_pos; lra).
    nra. }
  pose proof (Rle_0_sqr (t - s)) as H. unfold Rsqr in H. lra.
Qed.

(** What the tests of the clamp on one coordinate tell about the
    parameter of the foot, when the endpoints differ in that coordinate. *)
Lemma clamp_tests (c0 c1 s : R) :
  c0 <> c1 ->
  (s * (c1 - c0) + c0 > maxd c0 c1 ->
   (c0 > c1 -> s < 0) /\ (~ c0 > c1 -> 1 < s)) /\
  (s * (c1 - c0) + c0 < mind c0 c1 ->
   (c0 < c1 -> s < 0) /\ (~ c0 < c1 -> 1 < s)) /\
  (~ s * (c1 - c0) + c0 > maxd c0 c1 ->
   ~ s * (c1 - c0) + c0 < mind c0 c1 -> 0 <= s <= 1).
Proof.
  intros Hc. assert (Hc' : c0 < c1 \/ c1 < c0) by lra.
  unfold maxd, mind.
  destruct (Rge_dec c0 c1), (Rle_dec c0 c1); try lra;
    repeat split; intros; destruct Hc'; nra.
Qed.

(** For a segment whose endpoints the clamp separates, the answer is the
    point of the segment at the clamped parameter of the foot, with its
    distance to the query point. *)
Lemma pt_nearest_planar_clamp01 (x y a0 a1 b0 b1 : R) :
  clamp_separates (a0, a1) (b0, b1) ->
  pt_nearest_planar x y a0 a1 b0 b1
  = (along_segment (a0, a1) (b0, b1) (clamp01 (foot_param x y a0 a1 b0 b1)),
     dist2 (mkVector2 x y)
           (mkVector2
              (fst (along_segment (a0, a1) (b0, b1)
                      (clamp01 (foot_param x y a0 a1 b0 b1))))
              (snd (along_segment (a0, a1) (b0, b1)
                      (clamp01 (foot_param x y a0 a1 b0 b1)))))).
Proof.
  unfold clamp_separates, near_vertical; cbn [fst snd]. intros Hv.
  unfold pt_nearest_planar, proj2, along_segment; cbv zeta; cbn [x2 y2 fst snd].
  fold (foot_param x y a0 a1 b0 b1). set (s := foot_param x y a0 a1 b0 b1).
  destruct (Rlt_dec (absd (a0 - b0)) 1e-4) as [Hnv | Hnv].
  - specialize (Hv Hnv).
    destruct (clamp_tests a1 b1 s Hv) as (Hmax & Hmin & Hin).
    destruct (Rgt_dec _ _) as [H | H].
    { destruct (Hmax H) as [Hlt Hgt].
      destruct (Rgt_dec a1 b1) as [H' | H'].
      - rewrite (clamp01_below s (Hlt H')), dist2_sym.
        repeat (f_equal; try ring).
      - rewrite (clamp01_above s (Hgt H')), dist2_sym.
        repeat (f_equal; try ring). }
    destruct (Rlt_dec _ _) as [H0 | H0].
    { destruct (Hmin H0) as [Hlt Hgt].
      destruct (Rlt_dec a1 b1) as [H' | H'].
      - rewrite (clamp01_below s (Hlt H')), dist2_sym.
        repeat (f_equal; try ring).
      - rewrite (clamp01_above s (Hgt H')), dist2_sym.
        repeat (f_equal; try ring). }
    rewrite (clamp01_inside s (Hin H H0)), dist2_sym.
    repeat (f_equal; try ring).
  - assert (Hx : a0 <> b0).
    { intros ->. apply Hnv. replace (b0 - b0) with 0 by ring.
      rewrite absd_pos_eq; lra. }
    destruct (clamp_tests a0 b0 s Hx) as (Hmax & Hmin & Hin).
    destruct (Rgt_dec _ _) as [H | H].
    { destruct (Hmax H) as [Hlt Hgt].
      destruct (Rgt_dec a0 b0) as [H' | H'].
      - rewrite (clamp01_below s (Hlt H')), dist2_sym.
        repeat (f_equal; try ring).
      - rewrite (clamp01_above s (Hgt H')), dist2_sym.
        repeat (f_equal; try ring). }
    destruct (Rlt_dec _ _) as [H0 | H0].
    { destruct (Hmin H0) as [Hlt Hgt].
      destruct (Rlt_dec a0 b0) as [H' | H'].
      - rewrite (clamp01_below s (Hlt H')), dist2_sym.
        repeat (f_equal; try ring).
      - rewrite (clamp01_above s (Hgt H')), dist2_sym.
        repeat (f_equal; try ring). }
    rewrite (clamp01_inside s (Hin H H0)), dist2_sym.
    repeat (f_equal; try ring).
Qed.

Lemma clamp_separates_distinct (a0 a1 b0 b1 : R) :
  clamp_separates (a0, a1) (b0, b1) ->
  0 < dot2 (mkVector2 (b0 - a0) (b1 - a1)) (mkVector2 (b0 - a0) (b1 - a1)).
Proof.
  unfold clamp_separates, near_vertical, dot2; cbn [fst snd x2 y2].
  intros Hv.
  destruct (Rlt_dec (absd (a0 - b0)) 1e-4) as [Hnv | Hnv].
  - specialize (Hv Hnv).
    assert (0 < (b1 - a1) * (b1 - a1)) by (apply Rsqr_pos_lt; lra).
    pose proof (Rle_0_sqr (b0 - a0)) as H0. unfold Rsqr in H0. lra.
  - assert (Hx : a0 <> b0).
    { intros ->. apply Hnv. replace (b0 - b0) with 0 by ring.
      rewrite absd_pos_eq; lra. }
    assert (0 < (b0 - a0) * (b0 - a0)) by (apply Rsqr_pos_lt; lra).
    pose proof (Rle_0_sqr (b1 - a1)) as H0. unfold Rsqr in H0. lra.
Qed.

Lemma clamp_separates_sym (e0 e1 : R * R) :
  clamp_separates e0 e1 -> clamp_separates e1 e0.
Proof.
  unfold clamp_separates, near_vertical. intros H Hnv.
  rewrite absd_Rabs, Rabs_minus_sym, <- absd_Rabs in Hnv.
  specialize (H Hnv). congruence.
Qed.

(** The segment from (0, 0) to (2, 0) is not classified as near
    vertical. *)
Lemma clamp_separates_wide : clamp_separates (0, 0) (2, 0).
Proof.
  unfold clamp_separates, near_vertical; cbn [fst snd]. intros H.
  rewrite absd_neg_eq in H; lra.
Qed.

Lemma foot_param_eq (x y a0 a1 b0 b1 : R) :
  0 < dot2 (mkVector2 (b0 - a0) (b1 - a1)) (mkVector2 (b0 - a0) (b1 - a1)) ->
  foot_param x y a0 a1 b0 b1
  * ((b0 - a0) * (b0 - a0) + (b1 - a1) * (b1 - a1))
  = (x - a0) * (b0 - a0) + (y - a1) * (b1 - a1).
Proof.
  unfold foot_param, dot2; cbn [x2 y2]. intros H. field. lra.
Qed.

(** X1: the answer of [pt_nearest_planar] is nearest: for a segment whose
    endpoints the clamp separates, the distance returned is at most the
    distance from the query point to any point of the closed segment. *)
Theorem pt_nearest_planar_nearest (x y a0 a1 b0 b1 : R) (q : R * R) :
  clamp_separates (a0, a1) (b0, b1) ->
  on_segment (a0, a1) (b0, b1) q ->
  snd (pt_nearest_planar x y a0 a1 b0 b1)
  <= dist2 (mkVector2 x y) (mkVector2 (fst q) (snd q)).
Proof.
  intros Hsep (t & Ht & Hq0 & Hq1). cbn [fst snd] in Hq0, Hq1.
  rewrite pt_nearest_planar_clamp01 by exact Hsep.
  pose proof (clamp_separates_distinct _ _ _ _ Hsep) as HD.
  pose proof (foot_param_eq x y _ _ _ _ HD) as Hs.
  set (s := foot_param x y a0 a1 b0 b1) in *.
  pose proof (clamp01_nearest s t Ht) as Hc.
  set (c := clamp01 s) in *.
  unfold dot2 in HD; cbn [x2 y2] in HD.
  set (D := (b0 - a0) * (b0 - a0) + (b1 - a1) * (b1 - a1)) in *.
  unfold along_segment, dist2; cbn [fst snd x2 y2]. rewrite Hq0, Hq1.
  apply sqrt_le_1_alt.
  assert (E : (x - (a0 + t * (b0 - a0))) ^ 2 + (y - (a1 + t * (b1 - a1))) ^ 2
              - ((x - (a0 + c * (b0 - a0))) ^ 2
                 + (y - (a1 + c * (b1 - a1))) ^ 2)
              = D * ((t - s) * (t - s) - (c - s) * (c - s))
                + 2 * (t - c)
                  * (s * D - ((x - a0) * (b0 - a0) + (y - a1) * (b1 - a1)))).
  { unfold D. ring. }
  rewrite Hs in E.
  assert (0 <= D * ((t - s) * (t - s) - (c - s) * (c - s)))
    by (apply Rmult_le_pos; lra).
  lra.
Qed.

Lemma pt_nearest_planar_nearest_witness :
  clamp_separates (0, 0) (2, 0) /\
  on_segment (0, 0) (2, 0) (1, 0) /\
  snd (pt_nearest_planar 3 4 0 0 2 0)
  <= dist2 (mkVector2 3 4) (mkVector2 (fst (1, 0)) (snd (1, 0))).
Proof.
  assert (H1 : clamp_separates (0, 0) (2, 0)) by exact clamp_separates_wide.
  assert (H2 : on_segment (0, 0) (2, 0) (1, 0)).
  { exists (/ 2). cbn [fst snd]. repeat split; lra. }
  split; [exact H1 |]. split; [exact H2 |].
  exact (pt_nearest_planar_nearest 3 4 0 0 2 0 (1, 0) H1 H2).
Defined.

(** X2: a query point on the closed segment is answered by itself, at
    distance 0, for a segment whose endpoints the clamp separates. *)
Theorem pt_nearest_planar_on_itself (t a0 a1 b0 b1 : R) :
  clamp_separates (a0, a1) (b0, b1) ->
  0 <= t <= 1 ->
  pt_nearest_planar (a0 + t * (b0 - a0)) (a1 + t * (b1 - a1)) a0 a1 b0 b1
  = ((a0 + t * (b0 - a0), a1 + t * (b1 - a1)), 0).
Proof.
  intros Hsep Ht.
  rewrite pt_nearest_planar_clamp01 by exact Hsep.
  pose proof (clamp_separates_distinct _ _ _ _ Hsep) as HD.
  assert (Es : foot_param (a0 + t * (b0 - a0)) (a1 + t * (b1 - a1))
                          a0 a1 b0 b1 = t).
  { unfold foot_param, dot2 in *; cbn [x2 y2] in *. field. lra. }
  rewrite Es, (clamp01_inside t Ht).
  unfold along_segment, dist2; cbn [fst snd x2 y2]. f_equal.
  replace ((a0 + t * (b0 - a0) - (a0 + t * (b0 - a0))) ^ 2
           + (a1 + t * (b1 - a1) - (a1 + t * (b1 - a1))) ^ 2)
    with 0 by ring.
  apply sqrt_0.
Qed.

Lemma pt_nearest_planar_on_itself_witness :
  clamp_separates (0, 0) (2, 0) /\ 0 <= / 2 <= 1 /\
  pt_nearest_planar (0 + / 2 * (2 - 0)) (0 + / 2 * (0 - 0)) 0 0 2 0
  = ((0 + / 2 * (2 - 0), 0 + / 2 * (0 - 0)), 0).
Proof.
  assert (H1 : clamp_separates (0, 0) (2, 0)) by exact clamp_separates_wide.
  assert (H2 : 0 <= / 2 <= 1) by lra.
  split; [exact H1 |]. split; [exact H2 |].
  exact (pt_nearest_planar_on_itself (/ 2) 0 0 2 0 H1 H2).
Defined.

(** X3: a query point on the line of the segment but outside it is
    answered by the endpoint on its side: E0 when it lies before E0, E1
    when it lies beyond E1 (for a segment whose endpoints the clamp
    separates). *)
Theorem pt_nearest_planar_extension (t a0 a1 b0 b1 : R) :
  clamp_separates (a0, a1) (b0, b1) ->
  (t < 0 ->
   fst (pt_nearest_planar (a0 + t * (b0 - a0)) (a1 + t * (b1 - a1))
                          a0 a1 b0 b1) = (a0, a1)) /\
  (1 < t ->
   fst (pt_nearest_planar (a0 + t * (b0 - a0)) (a1 + t * (b1 - a1))
                          a0 a1 b0 b1) = (b0, b1)).
Proof.
  intros Hsep.
  rewrite pt_nearest_planar_clamp01 by exact Hsep.
  pose proof (clamp_separates_distinct _ _ _ _ Hsep) as HD.
  assert (Es : foot_param (a0 + t * (b0 - a0)) (a1 + t * (b1 - a1))
                          a0 a1 b0 b1 = t).
  { unfold foot_param, dot2 in *; cbn [x2 y2] in *. field. lra. }
  rewrite Es. unfold along_segment; cbn [fst snd].
  split; intros Ht.
  - rewrite clamp01_below by exact Ht. f_equal; ring.
  - rewrite clamp01_above by exact Ht. f_equal; ring.
Qed.

Lemma pt_nearest_planar_extension_witness :
  clamp_separates (0, 0) (2, 0) /\
  fst (pt_nearest_planar (0 + 3 * (2 - 0)) (0 + 3 * (0 - 0)) 0 0 2 0)
  = (2, 0).
Proof.
  assert (H1 : clamp_separates (0, 0) (2, 0)) by exact clamp_separates_wide.
  split; [exact H1 |].
  apply (pt_nearest_planar_extension 3 0 0 2 0 H1). lra.
Defined.

(** X4: the answer does not depend on the order of the endpoints (for a
    segment whose endpoints the clamp separates). *)
Theorem pt_nearest_planar_swap (x y a0 a1 b0 b1 : R) :
  clamp_separates (a0, a1) (b0, b1) ->
  pt_nearest_planar x y b0 b1 a0 a1 = pt_nearest_planar x y a0 a1 b0 b1.
Proof.
  intros Hsep.
  rewrite (pt_nearest_planar_clamp01 x y a0 a1 b0 b1) by exact Hsep.
  rewrite (pt_nearest_planar_clamp01 x y b0 b1 a0 a1)
    by (apply clamp_separates_sym; exact Hsep).
  pose proof (clamp_separates_distinct _ _ _ _ Hsep) as HD.
  assert (Es : foot_param x y b0 b1 a0 a1 = 1 - foot_param x y a0 a1 b0 b1).
  { unfold foot_param, dot2 in *; cbn [x2 y2] in *. field. lra. }
  rewrite Es. set (s := foot_param x y a0 a1 b0 b1).
  assert (Ec : clamp01 (1 - s) = 1 - clamp01 s).
  { unfold clamp01.
    destruct (Rlt_dec (1 - s) 0), (Rgt_dec (1 - s) 1),
      (Rlt_dec s 0), (Rgt_dec s 1); lra. }
  rewrite Ec. unfold along_segment; cbn [fst snd].
  repeat (f_equal; try ring).
Qed.

Lemma pt_nearest_planar_swap_witness :
  clamp_separates (0, 0) (2, 0) /\
  pt_nearest_planar 3 4 2 0 0 0 = pt_nearest_planar 3 4 0 0 2 0.
Proof.
  assert (H1 : clamp_separates (0, 0) (2, 0)) by exact clamp_separates_wide.
  split; [exact H1 |].
  exact (pt_nearest_planar_swap 3 4 0 0 2 0 H1).
Defined.

(** X5: [proj2 u v] is the orthogonal projection on a non-zero [v]: what
    is left of [u] is orthogonal to [v], and projecting twice changes
    nothing. *)
Theorem proj2_orthogonal (u v : Vector2) :
  dot2 v v <> 0 ->
  dot2 (mkVector2 (x2 u - x2 (proj2 u v)) (y2 u - y2 (proj2 u v))) v = 0 /\
  proj2 (proj2 u v) v = proj2 u v.
Proof.
  intros Hv. unfold proj2, dot2 in *; cbn [x2 y2] in *. split.
  - field. exact Hv.
  - f_equal; field; exact Hv.
Qed.

Lemma proj2_orthogonal_witness :
  dot2 (mkVector2 2 0) (mkVector2 2 0) <> 0 /\
  dot2 (mkVector2 (x2 (mkVector2 3 4)
                   - x2 (proj2 (mkVector2 3 4) (mkVector2 2 0)))
                  (y2 (mkVector2 3 4)
                   - y2 (proj2 (mkVector2 3 4) (mkVector2 2 0))))
       (mkVector2 2 0) = 0.
Proof.
  assert (H : dot2 (mkVector2 2 0) (mkVector2 2 0) <> 0)
    by (unfold dot2; cbn [x2 y2]; lra).
  split; [exact H |].
  exact (proj1 (proj2_orthogonal (mkVector2 3 4) (mkVector2 2 0) H)).
Defined.

(** X6: on a segment classified as near vertical whose endpoints have the
    same y, a query point whose x lies outside the x range of the
    endpoints is answered by a point off the closed segment. *)
Theorem pt_nearest_planar_flat_off_segment (x y a0 a1 b0 : R) :
  near_vertical a0 b0 ->
  a0 <> b0 ->
  x < Rmin a0 b0 \/ Rmax a0 b0 < x ->
  ~ on_segment (a0, a1) (b0, a1) (fst (pt_nearest_planar x y a0 a1 b0 a1)).
Proof.
  intros Hnv Hne Hx. rewrite pt_nearest_planar_flat by assumption.
  cbn [fst]. intros (t & Ht & Hq & _). cbn [fst snd] in Hq.
  unfold Rmin, Rmax in Hx. destruct (Rle_dec a0 b0) as [Hle | Hle].
  - assert (0 <= t * (b0 - a0)) by (apply Rmult_le_pos; lra).
    assert (0 <= (1 - t) * (b0 - a0)) by (apply Rmult_le_pos; lra).
    lra.
  - assert (0 <= t * (a0 - b0)) by (apply Rmult_le_pos; lra).
    assert (0 <= (1 - t) * (a0 - b0)) by (apply Rmult_le_pos; lra).
    lra.
Qed.

Lemma pt_nearest_planar_flat_off_segment_witness :
  near_vertical 0 5e-5 /\ 0 <> 5e-5 /\
  (7 < Rmin 0 5e-5 \/ Rmax 0 5e-5 < 7) /\
  ~ on_segment (0, 0) (5e-5, 0) (fst (pt_nearest_planar 7 2 0 0 5e-5 0)).
Proof.
  assert (H1 : near_vertical 0 5e-5) by exact near_vertical_short.
  assert (H2 : 0 <> 5e-5) by lra.
  assert (H3 : 7 < Rmin 0 5e-5 \/ Rmax 0 5e-5 < 7).
  { right. unfold Rmax. destruct (Rle_dec 0 5e-5); lra. }
  repeat (split; [assumption |]).
  exact (pt_nearest_planar_flat_off_segment 7 2 0 0 5e-5 H1 H2 H3).
Defined.

(** ** Vector algebra *)

Lemma norm2_triangle (a b c d : R) :
  sqrt ((a + c) * (a + c) + (b + d) * (b + d))
  <= sqrt (a * a + b * b) + sqrt (c * c + d * d).
Proof.
  assert (Hab : 0 <= a * a + b * b) by nra.
  assert (Hcd : 0 <= c * c + d * d) by nra.
  pose proof (sqrt_pos (a * a + b * b)) as HA.
  pose proof (sqrt_pos (c * c + d * d)) as HC.
  pose proof (sqrt_sqrt _ Hab) as EA.
  pose proof (sqrt_sqrt _ Hcd) as EC.
  pose proof (sqrt_cauchy a b c d) as Hcs. unfold Rsqr in Hcs.
  set (A := sqrt (a * a + b * b)) in *.
  set (C := sqrt (c * c + d * d)) in *.
  rewrite <- (sqrt_square (A + C)) by lra.
  apply sqrt_le_1_alt. nra.
Qed.

(** X7: [dist2] is a metric: it is not negative, symmetric, zero exactly
    between equal points, and obeys the triangle inequality. *)
Theorem dist2_metric (p q r : Vector2) :
  0 <= dist2 p q /\
  dist2 p q = dist2 q p /\
  (dist2 p q = 0 <-> p = q) /\
  dist2 p r <= dist2 p q + dist2 q r.
Proof.
  split; [apply sqrt_pos |]. split; [unfold dist2; f_equal; ring |].
  split.
  - unfold dist2. split.
    + intros H. apply sqrt_eq_0 in H;
        [| apply Rplus_le_le_0_compat; apply pow2_ge_0].
      rewrite <- !Rsqr_pow2 in H. apply Rplus_sqr_eq_0 in H.
      destruct p as [px py], q as [qx qy]; cbn [x2 y2] in *.
      f_equal; lra.
    + intros ->. replace ((x2 q - x2 q) ^ 2 + (y2 q - y2 q) ^ 2) with 0
        by ring.
      apply sqrt_0.
  - unfold dist2.
    replace ((x2 p - x2 r) ^ 2 + (y2 p - y2 r) ^ 2)
      with ((x2 p - x2 q + (x2 q - x2 r)) * (x2 p - x2 q + (x2 q - x2 r))
            + (y2 p - y2 q + (y2 q - y2 r)) * (y2 p - y2 q + (y2 q - y2 r)))
      by ring.
    replace ((x2 p - x2 q) ^ 2 + (y2 p - y2 q) ^ 2)
      with ((x2 p - x2 q) * (x2 p - x2 q) + (y2 p - y2 q) * (y2 p - y2 q))
      by ring.
    replace ((x2 q - x2 r) ^ 2 + (y2 q - y2 r) ^ 2)
      with ((x2 q - x2 r) * (x2 q - x2 r) + (y2 q - y2 r) * (y2 q - y2 r))
      by ring.
    apply norm2_triangle.
Qed.

(** X8: [cross3 u v] is orthogonal to [u] and to [v], changes sign when
    its arguments are swapped, and its squared length is
    |u|^2 |v|^2 - (u . v)^2; so is [eulerpole_cart]. *)
Theorem cross3_orthogonal (u v : Vector3) :
  dot3 (cross3 u v) u = 0 /\
  dot3 (cross3 u v) v = 0 /\
  cross3 v u
  = mkVector3 (- x3 (cross3 u v)) (- y3 (cross3 u v)) (- z3 (cross3 u v)) /\
  dot3 (cross3 u v) (cross3 u v)
  = dot3 u u * dot3 v v - dot3 u v * dot3 u v /\
  eulerpole_cart u v = cross3 u v.
Proof.
  unfold eulerpole_cart, cross3, dot3; cbn [x3 y3 z3].
  repeat split; try ring. f_equal; ring.
Qed.

Lemma sph2cart_norm (a : Vector2) : dot3 (sph2cart a) (sph2cart a) = 1.
Proof.
  unfold sph2cart, dot3; cbn [x3 y3 z3].
  pose proof (sin2_cos2 (PI * (90.0 - y2 a) / 180.0)) as H1.
  pose proof (sin2_cos2 (PI * x2 a / 180.0)) as H2.
  unfold Rsqr in H1, H2. nra.
Qed.

(** X9: [sph2cart] lands on the unit sphere, whatever the longitude and
    the latitude; at latitude 90 it answers the pole (0, 0, 1) for every
    longitude. *)
Theorem sph2cart_unit (a : Vector2) :
  dot3 (sph2cart a) (sph2cart a) = 1 /\
  sph2cart (mkVector2 (x2 a) 90) = mkVector3 0 0 1.
Proof.
  split.
  - apply sph2cart_norm.
  - unfold sph2cart; cbn [x2 y2].
    replace (PI * (90.0 - 90) / 180.0) with 0 by lra.
    rewrite sin_0, cos_0. f_equal; ring.
Qed.

(** X10: the Euler pole of two points is orthogonal to both of them as
    points of the unit sphere, and its squared length is one minus the
    square of their scalar product; the pole of a point with itself is
    the zero vector. *)
Theorem eulerpole_orthogonal (a b : Vector2) :
  dot3 (eulerpole a b) (sph2cart a) = 0 /\
  dot3 (eulerpole a b) (sph2cart b) = 0 /\
  dot3 (eulerpole a b) (eulerpole a b)
  = 1 - dot3 (sph2cart a) (sph2cart b) * dot3 (sph2cart a) (sph2cart b) /\
  eulerpole a a = mkVector3 0 0 0.
Proof.
  unfold eulerpole; cbv zeta.
  pose proof (sph2cart_norm a) as Ha.
  pose proof (sph2cart_norm b) as Hb.
  set (u := sph2cart a) in *. set (v := sph2cart b) in *.
  unfold cross3, dot3 in *; cbn [x3 y3 z3] in *.
  split; [ring |]. split; [ring |]. split; [nra |]. f_equal; ring.
Qed.

(** X11: [isleft] is a strict orientation test: it is unchanged when the
    three points are rotated, it cannot hold for both orders of the first
    two points, and it fails for every point on the line of the first
    two. *)
Theorem isleft_orientation (p0 p1 p2 : R * R) :
  isleft p0 p1 p2 = isleft p1 p2 p0 /\
  (isleft p0 p1 p2 = true -> isleft p1 p0 p2 = false) /\
  (forall t : R,
      isleft p0 p1 (fst p0 + t * (fst p1 - fst p0),
                    snd p0 + t * (snd p1 - snd p0)) = false).
Proof.
  unfold isleft; cbn [fst snd]. split; [| split].
  - replace ((fst p2 - fst p1) * (snd p0 - snd p1)
             - (snd p2 - snd p1) * (fst p0 - fst p1))
      with ((fst p1 - fst p0) * (snd p2 - snd p0)
            - (snd p1 - snd p0) * (fst p2 - fst p0)) by ring.
    reflexivity.
  - replace ((fst p0 - fst p1) * (snd p2 - snd p1)
             - (snd p0 - snd p1) * (fst p2 - fst p1))
      with (- ((fst p1 - fst p0) * (snd p2 - snd p0)
               - (snd p1 - snd p0) * (fst p2 - fst p0))) by ring.
    destruct (Rgt_dec _ 0) as [H | H]; [| discriminate].
    intros _. destruct (Rgt_dec _ 0); [lra | reflexivity].
  - intros t.
    replace ((fst p1 - fst p0) * (snd p0 + t * (snd p1 - snd p0) - snd p0)
             - (snd p1 - snd p0) * (fst p0 + t * (fst p1 - fst p0) - fst p0))
      with 0 by ring.
    destruct (Rgt_dec 0 0); [lra | reflexivity].
Qed.

(** ** Angles *)

Lemma tan_shift_PI (t : R) : cos t <> 0 -> sin t / cos t = tan (t - PI).
Proof.
  intros Hc. unfold tan. replace t with (t - PI + PI) at 1 2 by ring.
  rewrite neg_sin, neg_cos. field.
  replace t with (t - PI + PI) in Hc by ring. rewrite neg_cos in Hc. lra.
Qed.

Lemma tan_shift_PI' (t : R) : cos t <> 0 -> sin t / cos t = tan (t + PI).
Proof.
  intros Hc. unfold tan. rewrite neg_sin, neg_cos. field. exact Hc.
Qed.

(** The C library's [atan2] gives back the angle of a direction. *)
Lemma atan2_polar (r t : R) :
  0 < r -> - PI < t <= PI -> atan2 (r * sin t) (r * cos t) = t.
Proof.
  intros Hr Ht. pose proof PI_RGT_0 as HPI. unfold atan2.
  destruct (Rtotal_order t (- (PI / 2))) as [Hlo | [Hlo | Hlo]].
  - (* -PI < t < -PI/2 *)
    assert (Hc : cos t < 0).
    { rewrite <- cos_neg. apply cos_lt_0; lra. }
    assert (Hs : sin t < 0).
    { assert (0 < sin (- t)) by (apply sin_gt_0; lra).
      rewrite sin_neg in H. lra. }
    destruct (Rgt_dec _ 0) as [H | _]; [nra |].
    destruct (Rlt_dec _ 0) as [_ | H]; [| nra].
    destruct (Rge_dec _ 0) as [H | _]; [nra |].
    replace (r * sin t / (r * cos t)) with (sin t / cos t) by (field; lra).
    rewrite tan_shift_PI' by lra. rewrite atan_tan by lra. ring.
  - (* t = -PI/2 *)
    subst t. rewrite cos_neg, sin_neg, cos_PI2, sin_PI2.
    replace (r * 0) with 0 by ring.
    destruct (Rgt_dec 0 0) as [H | _]; [lra |].
    destruct (Rlt_dec 0 0) as [H | _]; [lra |].
    destruct (Rgt_dec _ 0) as [H | _]; [lra |].
    destruct (Rlt_dec _ 0) as [_ | H]; [reflexivity | lra].
  - destruct (Rtotal_order t (PI / 2)) as [Hhi | [Hhi | Hhi]].
    + (* -PI/2 < t < PI/2 *)
      assert (Hc : 0 < cos t) by (apply cos_gt_0; lra).
      destruct (Rgt_dec _ 0) as [_ | H]; [| nra].
      replace (r * sin t / (r * cos t)) with (tan t)
        by (unfold tan; field; lra).
      apply atan_tan. lra.
    + (* t = PI/2 *)
      subst t. rewrite cos_PI2, sin_PI2.
      replace (r * 0) with 0 by ring.
      destruct (Rgt_dec 0 0) as [H | _]; [lra |].
      destruct (Rlt_dec 0 0) as [H | _]; [lra |].
      destruct (Rgt_dec _ 0) as [_ | H]; [reflexivity | lra].
    + (* PI/2 < t <= PI *)
      assert (Hc : cos t < 0) by (apply cos_lt_0; lra).
      assert (Hs : 0 <= sin t) by (apply sin_ge_0; lra).
      destruct (Rgt_dec _ 0) as [H | _]; [nra |].
      destruct (Rlt_dec _ 0) as [_ | H]; [| nra].
      destruct (Rge_dec _ 0) as [_ | H]; [| nra].
      replace (r * sin t / (r * cos t)) with (sin t / cos t) by (field; lra).
      rewrite tan_shift_PI by lra. rewrite atan_tan by lra. ring.
Qed.

Lemma atan_nonpos (r : R) : r <= 0 -> atan r <= 0.
Proof.
  intros [H | ->]; [| rewrite atan_0; lra].
  apply atan_increasing in H. rewrite atan_0 in H. lra.
Qed.

Lemma atan_pos (r : R) : 0 < r -> 0 < atan r.
Proof. intros H. apply atan_increasing in H. rewrite atan_0 in H. lra. Qed.

(** The C library's [atan2] answers in (-PI, PI]. *)
Lemma atan2_range (y x : R) : - PI < atan2 y x <= PI.
Proof.
  pose proof PI_RGT_0 as HPI. unfold atan2.
  destruct (Rgt_dec x 0).
  { pose proof (atan_bound (y / x)). lra. }
  destruct (Rlt_dec x 0) as [Hx | Hx].
  - pose proof (atan_bound (y / x)) as Hb.
    assert (Hi : / x < 0) by (apply Rinv_lt_0_compat; exact Hx).
    destruct (Rge_dec y 0) as [Hy | Hy].
    + assert (y / x <= 0) by (unfold Rdiv; nra).
      pose proof (atan_nonpos _ H). lra.
    + assert (0 < y / x) by (unfold Rdiv; nra).
      pose proof (atan_pos _ H). lra.
  - destruct (Rgt_dec y 0); [lra |]. destruct (Rlt_dec y 0); lra.
Qed.

(** X12: with [atan2] as the C library defines it, [polarangle] answers
    in (-PI, PI]; it gives back the angle [t] of the direction
    (cos t, sin t) at any distance r > 0, and 0 between equal points. *)
Theorem polarangle_direction (p : R * R) (r t : R) :
  0 < r -> - PI < t <= PI ->
  polarangle p (fst p + r * cos t, snd p + r * sin t) = t /\
  polarangle p p = 0 /\
  (forall q : R * R, - PI < polarangle p q <= PI).
Proof.
  intros Hr Ht. unfold polarangle; cbn [fst snd]. split; [| split].
  - replace (snd p + r * sin t - snd p) with (r * sin t) by ring.
    replace (fst p + r * cos t - fst p) with (r * cos t) by ring.
    apply atan2_polar; assumption.
  - replace (snd p - snd p) with 0 by ring.
    replace (fst p - fst p) with 0 by ring.
    unfold atan2.
    destruct (Rgt_dec 0 0); [lra |]. destruct (Rlt_dec 0 0); [lra |].
    reflexivity.
  - intros q. apply atan2_range.
Qed.

Lemma polarangle_direction_witness :
  0 < 2 /\ - PI < PI / 2 <= PI /\
  polarangle (1, 1) (fst (1, 1) + 2 * cos (PI / 2),
                     snd (1, 1) + 2 * sin (PI / 2)) = PI / 2.
Proof.
  assert (H1 : 0 < 2) by lra.
  assert (H2 : - PI < PI / 2 <= PI) by (pose proof PI_RGT_0; lra).
  split; [exact H1 |]. split; [exact H2 |].
  exact (proj1 (polarangle_direction (1, 1) 2 (PI / 2) H1 H2)).
Defined.

(** X13: [azimuth] is the bearing from north, clockwise: for a
    displacement of length r > 0 in the direction (sin t, cos t) it
    answers [t]; due north is 0 and due east is PI / 2. *)
Theorem azimuth_bearing (pt1 : Vector2) (r t : R) :
  0 < r -> - PI < t <= PI ->
  azimuth pt1 (mkVector2 (x2 pt1 + r * sin t) (y2 pt1 + r * cos t)) = t /\
  azimuth pt1 (mkVector2 (x2 pt1) (y2 pt1 + r)) = 0 /\
  azimuth pt1 (mkVector2 (x2 pt1 + r) (y2 pt1)) = PI / 2.
Proof.
  intros Hr Ht. pose proof PI_RGT_0 as HPI.
  unfold azimuth; cbn [x2 y2]. split; [| split].
  - replace (x2 pt1 + r * sin t - x2 pt1) with (r * sin t) by ring.
    replace (y2 pt1 + r * cos t - y2 pt1) with (r * cos t) by ring.
    apply atan2_polar; assumption.
  - replace (x2 pt1 - x2 pt1) with (r * sin 0) by (rewrite sin_0; ring).
    replace (y2 pt1 + r - y2 pt1) with (r * cos 0) by (rewrite cos_0; ring).
    apply atan2_polar; lra.
  - replace (x2 pt1 + r - x2 pt1) with (r * sin (PI / 2))
      by (rewrite sin_PI2; ring).
    replace (y2 pt1 - y2 pt1) with (r * cos (PI / 2))
      by (rewrite cos_PI2; ring).
    apply atan2_polar; lra.
Qed.

Lemma azimuth_bearing_witness :
  0 < 3 /\ - PI < PI / 2 <= PI /\
  azimuth (mkVector2 1 1) (mkVector2 (x2 (mkVector2 1 1) + 3)
                                     (y2 (mkVector2 1 1))) = PI / 2.
Proof.
  assert (H1 : 0 < 3) by lra.
  assert (H2 : - PI < PI / 2 <= PI) by (pose proof PI_RGT_0; lra).
  split; [exact H1 |]. split; [exact H2 |].
  apply (azimuth_bearing (mkVector2 1 1) 3 (PI / 2) H1 H2).
Defined.

(** X14: [azimuth_sph] answers in (-PI, PI]; between two points of the
    equator (latitude 0, in radians) its denominator is exactly zero and
    it answers PI / 2, whatever the two longitudes are: also when the
    second point lies to the west, and between equal points. *)
Theorem azimuth_sph_equator (pt1 pt2 : Vector2) :
  - PI < azimuth_sph pt1 pt2 <= PI /\
  azimuth_sph (mkVector2 (x2 pt1) 0) (mkVector2 (x2 pt2) 0) = PI / 2.
Proof.
  pose proof PI_RGT_0 as HPI. unfold azimuth_sph; cbv zeta. split.
  - destruct (Req_dec_T _ 0); [lra | apply atan2_range].
  - cbn [x2 y2]. rewrite tan_0, sin_0, cos_0.
    destruct (Req_dec_T _ 0) as [_ | H]; [lra |].
    exfalso. apply H. ring.
Qed.

(** ** Spherical conversions, further *)

Lemma div_PI_lt (a c : R) : a < c * PI -> a / PI < c.
Proof.
  intros H. pose proof PI_RGT_0 as HPI.
  apply Rmult_lt_reg_r with PI; [exact HPI |].
  replace (a / PI * PI) with a by (field; lra). exact H.
Qed.

Lemma div_PI_gt (a c : R) : c * PI < a -> c < a / PI.
Proof.
  intros H. pose proof PI_RGT_0 as HPI.
  apply Rmult_lt_reg_r with PI; [exact HPI |].
  replace (a / PI * PI) with a by (field; lra). exact H.
Qed.

Lemma div_PI_le (a c : R) : a <= c * PI -> a / PI <= c.
Proof.
  intros H. pose proof PI_RGT_0 as HPI.
  apply Rmult_le_reg_r with PI; [exact HPI |].
  replace (a / PI * PI) with a by (field; lra). exact H.
Qed.

Lemma div_PI_ge (a c : R) : c * PI <= a -> c <= a / PI.
Proof.
  intros H. pose proof PI_RGT_0 as HPI.
  apply Rmult_le_reg_r with PI; [exact HPI |].
  replace (a / PI * PI) with a by (field; lra). exact H.
Qed.

(** X15: the longitude survives the round trip through [sph2cart] and
    [cart2sph] in every quadrant, for longitudes in (-180, 180] and
    latitudes in (-90, 90), whenever the x coordinate is above the 1e-8
    threshold in absolute value. *)
Theorem cart2sph_sph2cart_lon (lon lat : R) :
  -180 < lon <= 180 ->
  -90 < lat < 90 ->
  absd (x3 (sph2cart (mkVector2 lon lat))) > 1e-8 ->
  x2 (cart2sph (sph2cart (mkVector2 lon lat))) = lon.
Proof.
  intros Hlon Hlat. rewrite sph2cart_eq. cbn [x3]. intros Hx.
  pose proof PI_RGT_0 as HPI.
  set (t := PI * (90 - lat) / 180) in *.
  set (l := PI * lon / 180) in *.
  assert (Ht : 0 < t < PI) by (unfold t; split; nra).
  assert (Hl : - PI < l <= PI) by (unfold l; split; nra).
  assert (Hs : 0 < sin t) by (apply sin_gt_0; lra).
  unfold cart2sph; cbn [x3 y3 z3 x2].
  destruct (Rgt_dec _ 1e-8) as [_ | H]; [| contradiction].
  rewrite atan2_polar by assumption.
  apply div_PI. unfold l. lra.
Qed.

Lemma cart2sph_sph2cart_lon_witness :
  -180 < 180 <= 180 /\ -90 < 0 < 90 /\
  absd (x3 (sph2cart (mkVector2 180 0))) > 1e-8 /\
  x2 (cart2sph (sph2cart (mkVector2 180 0))) = 180.
Proof.
  assert (H1 : -180 < 180 <= 180) by lra.
  assert (H2 : -90 < 0 < 90) by lra.
  assert (H3 : absd (x3 (sph2cart (mkVector2 180 0))) > 1e-8).
  { rewrite sph2cart_eq. cbn [x3].
    replace (PI * (90 - 0) / 180) with (PI / 2) by lra.
    replace (PI * 180 / 180) with PI by lra.
    rewrite sin_PI2, cos_PI. rewrite absd_neg_eq; lra. }
  split; [exact H1 |]. split; [exact H2 |]. split; [exact H3 |].
  exact (cart2sph_sph2cart_lon 180 0 H1 H2 H3).
Defined.

(** X16: for a point off the z axis, [cart2sph] answers a longitude in
    (-180, 180] and a latitude in [-90, 180); the latitude is positive
    whenever |z| is above the 1e-8 threshold, also below the equator. *)
Theorem cart2sph_range (a : Vector3) :
  x3 a <> 0 \/ y3 a <> 0 ->
  -180 < x2 (cart2sph a) <= 180 /\
  -90 <= y2 (cart2sph a) < 180 /\
  (absd (z3 a) > 1e-8 -> 0 < y2 (cart2sph a)).
Proof.
  intros _. pose proof PI_RGT_0 as HPI.
  unfold cart2sph; cbn [x2 y2]. split; [| split].
  - destruct (Rgt_dec _ 1e-8).
    + pose proof (atan2_range (y3 a) (x3 a)) as H.
      split; [apply div_PI_gt | apply div_PI_le]; lra.
    + pose proof (asin_bound (y3 a / sqrt (x3 a * x3 a + y3 a * y3 a))) as H.
      split; [apply div_PI_gt | apply div_PI_le]; lra.
  - destruct (Rgt_dec _ 1e-8).
    + pose proof (atan_bound (sqrt (x3 a * x3 a + y3 a * y3 a) / z3 a)) as H.
      split; [apply div_PI_ge | apply div_PI_lt]; lra.
    + pose proof (acos_bound (z3 a / sqrt (x3 a * x3 a + y3 a * y3 a
                                           + z3 a * z3 a))) as H.
      split; [apply div_PI_ge | apply div_PI_lt]; lra.
  - intros Hz. destruct (Rgt_dec _ 1e-8) as [_ | H]; [| contradiction].
    pose proof (atan_bound (sqrt (x3 a * x3 a + y3 a * y3 a) / z3 a)) as H.
    apply div_PI_gt. lra.
Qed.

Lemma cart2sph_range_witness :
  (x3 (mkVector3 1 0 (-1)) <> 0 \/ y3 (mkVector3 1 0 (-1)) <> 0) /\
  absd (z3 (mkVector3 1 0 (-1))) > 1e-8 /\
  0 < y2 (cart2sph (mkVector3 1 0 (-1))).
Proof.
  assert (H1 : x3 (mkVector3 1 0 (-1)) <> 0 \/ y3 (mkVector3 1 0 (-1)) <> 0)
    by (left; cbn [x3]; lra).
  assert (H2 : absd (z3 (mkVector3 1 0 (-1))) > 1e-8)
    by (cbn [z3]; rewrite absd_neg_eq; lra).
  split; [exact H1 |]. split; [exact H2 |].
  apply (cart2sph_range (mkVector3 1 0 (-1)) H1). exact H2.
Defined.

(** The round trip of latitude 45 at longitude 0, north of the equator. *)
Lemma cart2sph_sph2cart_north_front_witness :
  -90 <= 0 <= 90 /\ 0 < 45 < 90 /\
  cart2sph (sph2cart (mkVector2 0 45)) = mkVector2 0 45.
Proof.
  assert (H1 : -90 <= 0 <= 90) by lra.
  assert (H2 : 0 < 45 < 90) by lra.
  split; [exact H1 |]. split; [exact H2 |].
  exact (cart2sph_sph2cart_north_front 0 45 H1 H2).
Defined.

(** The round trip of latitude -45 at longitude 0 answers latitude 135. *)
Lemma cart2sph_sph2cart_lat_south_witness :
  -90 < -45 < 0 /\
  z3 (sph2cart (mkVector2 0 (-45))) < -1e-8 /\
  y2 (cart2sph (sph2cart (mkVector2 0 (-45)))) = -45 + 180.
Proof.
  assert (H1 : -90 < -45 < 0) by lra.
  assert (H2 : z3 (sph2cart (mkVector2 0 (-45))) < -1e-8).
  { rewrite sph2cart_0_m45. cbn [z3]. pose proof inv_sqrt2_bounds. lra. }
  split; [exact H1 |]. split; [exact H2 |].
  exact (cart2sph_sph2cart_lat_south 0 (-45) H1 H2).
Defined.

(** A segment from (0, 0) to (2, 0) contains the answer to (3, 4). *)
Lemma pt_nearest_planar_on_segment_witness :
  (near_vertical 0 2 -> 0 <> 0) /\
  on_segment (0, 0) (2, 0) (fst (pt_nearest_planar 3 4 0 0 2 0)).
Proof.
  assert (H : near_vertical 0 2 -> 0 <> 0).
  { unfold near_vertical. intros H. rewrite absd_neg_eq in H; lra. }
  split; [exact H |].
  exact (pt_nearest_planar_on_segment 3 4 0 0 2 0 H).
Defined.

(** ** [length], further *)

(** The loop from the point at index [k] on, for a sequence that is not a
    ring: it adds the lengths of the segments through the points left. *)
Lemma length_loop_open (l : list (R * R)) :
  forall (rest pre : list (R * R)) (p : R * R) (d : R) (fuel : nat),
    l = pre ++ p :: rest ->
    (List.length rest + 1 <= fuel)%nat ->
    length_loop fuel (mkCoordString l false)
                (Z.of_nat (List.length l))
                (Z.of_nat (List.length pre)) d (fst p) (snd p)
    = Some (d + path_len p rest).
Proof.
  set (cs := mkCoordString l false).
  set (n := Z.of_nat (List.length l)).
  induction rest as [| q rest IH]; intros pre p d fuel Hl Hfuel.
  - assert (Hn : n = (Z.of_nat (List.length pre) + 1)%Z).
    { unfold n. rewrite Hl, length_app. cbn [List.length]. lia. }
    destruct fuel as [| fuel]; [cbn in Hfuel; lia |].
    cbn [length_loop].
    replace (Z.of_nat (List.length pre) =? n - 1)%Z with true
      by (symmetry; apply Z.eqb_eq; lia).
    cbn [path_len]. f_equal. ring.
  - assert (Hn : n = (Z.of_nat (List.length pre) + 2
                      + Z.of_nat (List.length rest))%Z).
    { unfold n. rewrite Hl, length_app. cbn [List.length]. lia. }
    destruct fuel as [| fuel]; [cbn in Hfuel; lia |].
    cbn [length_loop].
    replace (Z.of_nat (List.length pre) =? n - 1)%Z with false
      by (symmetry; apply Z.eqb_neq; lia).
    assert (Hw : wrap_index cs (Z.of_nat (List.length pre) + 1)
                 = Z.of_nat (List.length (pre ++ [p]))).
    { unfold wrap_index. cbn [ring cs andb].
      rewrite length_app. cbn [List.length]. lia. }
    assert (Hq : nth (List.length (pre ++ [p])) l (0, 0) = q).
    { rewrite Hl.
      replace (pre ++ p :: q :: rest) with ((pre ++ [p]) ++ q :: rest)
        by (rewrite <- app_assoc; reflexivity).
      apply nth_middle. }
    unfold getX, getY. rewrite Hw, Nat2Z.id. cbn [coords cs]. rewrite Hq.
    replace (Z.of_nat (List.length pre) + 1)%Z
      with (Z.of_nat (List.length (pre ++ [p])))
      by (rewrite length_app; cbn [List.length]; lia).
    rewrite (IH (pre ++ [p]) q).
    + cbn [path_len]. unfold seg_len. f_equal. ring.
    + rewrite Hl, <- app_assoc. reflexivity.
    + cbn [List.length] in Hfuel. lia.
Qed.

Lemma length_open_sum (l : list (R * R)) (fuel : nat) :
  l <> [] ->
  (List.length l <= fuel)%nat ->
  length fuel (mkCoordString l false) = Some (open_len l).
Proof.
  intros Hl Hfuel. destruct l as [| first tail]; [contradiction |].
  unfold length, len; cbn [ring coords].
  unfold getX, getY, wrap_index; cbn [ring coords andb Z.to_nat nth].
  pose proof (length_loop_open (first :: tail) tail [] first 0.0 fuel eq_refl)
    as E.
  change (Z.of_nat (List.length (@nil (R * R)))) with 0%Z in E.
  rewrite E.
  - cbn [open_len]. f_equal. lra.
  - cbn [List.length] in Hfuel. lia.
Qed.

Lemma last_cons :
  forall (ps : list (R * R)) (p d : R * R), last (p :: ps) d = last ps p.
Proof.
  induction ps as [| q ps IH]; intros p d.
  - reflexivity.
  - change (last (p :: q :: ps) d) with (last (q :: ps) d).
    rewrite (IH q d), (IH q p). reflexivity.
Qed.

Lemma path_len_snoc (q : R * R) :
  forall (ps : list (R * R)) (p : R * R),
    path_len p (ps ++ [q]) = path_len p ps + seg_len (last ps p) q.
Proof.
  induction ps as [| r ps IH]; intros p.
  - cbn [app path_len last]. ring.
  - cbn [app path_len]. rewrite IH, last_cons. ring.
Qed.

Lemma seg_len_triangle (p q r : R * R) :
  seg_len p r <= seg_len p q + seg_len q r.
Proof.
  unfold seg_len.
  replace ((fst r - fst p) * (fst r - fst p) + (snd r - snd p) * (snd r - snd p))
    with ((fst q - fst p + (fst r - fst q)) * (fst q - fst p + (fst r - fst q))
          + (snd q - snd p + (snd r - snd q))
            * (snd q - snd p + (snd r - snd q))) by ring.
  apply norm2_triangle.
Qed.

Lemma path_len_chord :
  forall (ps : list (R * R)) (p : R * R),
    seg_len p (last ps p) <= path_len p ps.
Proof.
  induction ps as [| q ps IH]; intros p.
  - cbn [last path_len]. unfold seg_len.
    replace ((fst p - fst p) * (fst p - fst p)
             + (snd p - snd p) * (snd p - snd p)) with 0 by ring.
    rewrite sqrt_0. lra.
  - cbn [path_len]. specialize (IH q). rewrite last_cons.
    pose proof (seg_len_triangle p q (last ps q)). lra.
Qed.

(** X17: for a coordinate sequence of n >= 1 points that is not a ring,
    [length] returns (given fuel for its n loop tests) the sum of the
    n - 1 segment lengths, with no closing segment; a single point has
    length 0. *)
Theorem length_open (cs : CoordString) (fuel : nat) :
  ring cs = false ->
  (1 <= len cs)%Z ->
  (len cs <= Z.of_nat fuel)%Z ->
  length fuel cs = Some (open_len (coords cs)) /\
  (forall p : R * R, coords cs = [p] -> length fuel cs = Some 0).
Proof.
  destruct cs as [l r]. unfold len; cbn [ring coords].
  intros -> Hlen Hfuel.
  assert (E : length fuel (mkCoordString l false) = Some (open_len l)).
  { apply length_open_sum; [| lia].
    intros ->. cbn in Hlen. lia. }
  split; [exact E |].
  intros p Hp. rewrite E, Hp. reflexivity.
Qed.

(** The three corners (0, 0), (3, 0), (3, 4) as an open path. *)
Lemma length_open_witness :
  ring (mkCoordString corner_path false) = false /\
  (1 <= len (mkCoordString corner_path false))%Z /\
  (len (mkCoordString corner_path false) <= Z.of_nat 3)%Z /\
  length 3 (mkCoordString corner_path false) = Some (open_len corner_path).
Proof.
  assert (H1 : ring (mkCoordString corner_path false) = false)
    by reflexivity.
  assert (H2 : (1 <= len (mkCoordString corner_path false))%Z)
    by (cbv; discriminate).
  assert (H3 : (len (mkCoordString corner_path false) <= Z.of_nat 3)%Z)
    by (cbv; discriminate).
  repeat (split; [assumption |]).
  exact (proj1 (length_open _ 3 H1 H2 H3)).
Defined.

(** X18: for the same points (at least one) a ring is longer than the
    open path by exactly the closing segment from the last point back to
    the first. *)
Theorem length_ring_open (l : list (R * R)) (fuel : nat) :
  l <> [] ->
  (List.length l < fuel)%nat ->
  exists d : R,
    length fuel (mkCoordString l false) = Some d /\
    length fuel (mkCoordString l true)
    = Some (d + seg_len (last l (0, 0)) (hd (0, 0) l)).
Proof.
  intros Hl Hfuel. exists (open_len l). split.
  - apply length_open_sum; [exact Hl | lia].
  - rewrite length_ring_sum.
    + cbn [coords]. destruct l as [| p ps]; [contradiction |].
      cbn [ring_len open_len hd]. rewrite path_len_snoc, last_cons.
      reflexivity.
    + reflexivity.
    + unfold len; cbn [coords]. destruct l; [contradiction |].
      cbn [List.length]. lia.
    + unfold len; cbn [coords]. lia.
Qed.

Lemma length_ring_open_witness :
  corner_path <> [] /\
  (List.length corner_path < 4)%nat /\
  exists d : R,
    length 4 (mkCoordString corner_path false) = Some d /\
    length 4 (mkCoordString corner_path true)
    = Some (d + seg_len (last corner_path (0, 0)) (hd (0, 0) corner_path)).
Proof.
  assert (H1 : corner_path <> []) by discriminate.
  assert (H2 : (List.length corner_path < 4)%nat) by (cbn; lia).
  split; [exact H1 |]. split; [exact H2 |].
  exact (length_ring_open _ 4 H1 H2).
Defined.

(** X19: an open path is at least as long as the straight segment from
    its first point to its last one. *)
Theorem length_open_chord (l : list (R * R)) (fuel : nat) :
  l <> [] ->
  (List.length l <= fuel)%nat ->
  exists d : R,
    length fuel (mkCoordString l false) = Some d /\
    seg_len (hd (0, 0) l) (last l (0, 0)) <= d.
Proof.
  intros Hl Hfuel. exists (open_len l).
  split; [apply length_open_sum; assumption |].
  destruct l as [| p ps]; [contradiction |].
  cbn [hd open_len]. rewrite last_cons. apply path_len_chord.
Qed.

Lemma length_open_chord_witness :
  corner_path <> [] /\
  (List.length corner_path <= 3)%nat /\
  exists d : R,
    length 3 (mkCoordString corner_path false) = Some d /\
    seg_len (hd (0, 0) corner_path) (last corner_path (0, 0)) <= d.
Proof.
  assert (H1 : corner_path <> []) by discriminate.
  assert (H2 : (List.length corner_path <= 3)%nat) by (cbn; lia).
  split; [exact H1 |]. split; [exact H2 |].
  exact (length_open_chord _ 3 H1 H2).
Defined.

(** ** [pt_nearest_proj], further *)

Section SearchFurther.

Variables fwd inv : R -> R -> R -> R -> R * R * R.
Variables pt endpt0 endpt1 : R * R.

Local Abbreviation az := (seg_az inv endpt0 endpt1).
Local Abbreviation L := (seg_L inv endpt0 endpt1).
Local Abbreviation steps := (bisect_steps fwd inv pt endpt0 az L).
Local Abbreviation search := (pt_nearest_proj fwd inv).
Local Abbreviation st tol j :=
  (fst (steps j (bisect_init tol) (endpoint_calls L))).
Local Abbreviation G := (grad_at fwd inv pt endpt0 endpt1).
Local Abbreviation A := (along fwd inv pt endpt0 endpt1).

(** The bracket after any number of iterations of an entered loop: the
    gradient is not positive at its lower end and not negative at its
    upper end, and after the first iteration [xm] is one of its ends. *)
Lemma bisect_steps_bracket (tol : R) (j : nat) :
  enters_loop fwd inv pt endpt0 endpt1 ->
  ~ G (x0 (st tol j) * L) > 0 /\
  ~ G (x1 (st tol j) * L) < 0 /\
  ((1 <= j)%nat ->
   xm (st tol j) = x0 (st tol j) \/ xm (st tol j) = x1 (st tol j)).
Proof.
  intros [H0 H1]. induction j as [| j IH].
  - cbn [bisect_steps fst bisect_init x0 x1].
    replace (0.0 * L) with 0 by lra. replace (1.0 * L) with L by lra.
    split; [exact H0 |]. split; [exact H1 | lia].
  - destruct IH as (Hlo & Hhi & _).
    rewrite bisect_steps_S_r.
    pose proof (bisect_body_eq fwd inv pt endpt0 az L
                  (fst (steps j (bisect_init tol) (endpoint_calls L)))
                  (snd (steps j (bisect_init tol) (endpoint_calls L)))) as E.
    cbv zeta in E. rewrite E. clear E.
    change (_along_distance_gradient fwd inv (fst endpt0) (snd endpt0)
              (fst pt) (snd pt) az
              (0.5 * (x0 (st tol j) + x1 (st tol j)) * L) (1e-7 * L))
      with (G (0.5 * (x0 (st tol j) + x1 (st tol j)) * L)).
    destruct (Rgt_dec _ 0) as [Hg | Hg]; cbn [fst x0 x1 xm].
    + split; [exact Hlo |]. split; [lra | intros _; right; reflexivity].
    + split; [exact Hg |]. split; [exact Hhi | intros _; left; reflexivity].
Qed.

(** X20: with an iteration count [maxiter >= 0] the search always ends,
    with a value or with ConvergenceError, within [maxiter + 1] tests of
    the loop condition, and it evaluates the gradient at most
    [2 + maxiter] times. *)
Theorem pt_nearest_proj_cost (fuel : nat) (tol : R) (maxiter : Z) :
  (0 <= maxiter)%Z ->
  (maxiter < Z.of_nat fuel)%Z ->
  exists r calls,
    search fuel pt endpt0 endpt1 tol maxiter = Some (r, calls) /\
    (2 <= List.length calls <= 2 + Z.to_nat maxiter)%nat.
Proof.
  intros Hm Hfuel.
  destruct (pt_nearest_proj_total fwd inv pt endpt0 endpt1 fuel tol maxiter
              Hm Hfuel) as (r & calls & E).
  exists r, calls. split; [exact E |].
  rewrite pt_nearest_proj_eq in E.
  destruct (Rgt_dec _ 0).
  { injection E as <- <-. cbn [endpoint_calls List.length]. lia. }
  destruct (Rlt_dec _ 0).
  { injection E as <- <-. cbn [endpoint_calls List.length]. lia. }
  destruct (bisect _ _ _ _ _ _ _ _ _ _ _) as [[r' c] |] eqn:Eb;
    [| discriminate].
  apply bisect_init_inversion in Eb.
  destruct Eb as (k & _ & Hc & -> & _).
  assert (Hk : (k <= Z.to_nat maxiter)%nat).
  { destruct (Nat.le_gt_cases k (Z.to_nat maxiter)) as [Hle | Hgt];
      [exact Hle |].
    destruct (Hc (Z.to_nat maxiter) Hgt) as [_ Hne]. lia. }
  assert (El : List.length calls = (2 + k)%nat).
  { destruct r'; injection E as <- <-;
      rewrite bisect_steps_calls, length_app, length_map, length_seq;
      reflexivity. }
  lia.
Qed.

(** X21: for tol > 0 and L > 0 the iteration count decides the outcome:
    with [maxiter] at least max(1, ceil (log2 (L / tol))) the search
    returns a value, whatever the functional is; with a smaller
    [maxiter >= 0] an entered loop ends with ConvergenceError. *)
Theorem pt_nearest_proj_converges (fuel : nat) (tol : R) (maxiter : Z) :
  0 < tol -> 0 < L ->
  ((iterations_needed tol L <= maxiter)%Z ->
   (iterations_needed tol L < Z.of_nat fuel)%Z ->
   exists v calls,
     search fuel pt endpt0 endpt1 tol maxiter = Some (Returned v, calls)) /\
  (enters_loop fwd inv pt endpt0 endpt1 ->
   (0 <= maxiter < iterations_needed tol L)%Z ->
   (maxiter < Z.of_nat fuel)%Z ->
   exists calls,
     search fuel pt endpt0 endpt1 tol maxiter
     = Some (Raised exhausted, calls)).
Proof.
  intros Ht HL.
  destruct (iterations_needed_first tol L Ht HL) as [Hc Hn].
  assert (H1 : (1 <= iterations_needed tol L)%Z)
    by (unfold iterations_needed; lia).
  split.
  - intros Hm Hfuel.
    destruct (Rgt_dec (G 0) 0) as [H0 | H0].
    { rewrite pt_nearest_proj_eq.
      destruct (Rgt_dec _ 0); [eauto | contradiction]. }
    destruct (Rlt_dec (G L) 0) as [HL' | HL'].
    { rewrite pt_nearest_proj_eq.
      destruct (Rgt_dec _ 0); [contradiction |].
      destruct (Rlt_dec _ 0); [eauto | contradiction]. }
    do 2 eexists.
    apply (pt_nearest_proj_returns fwd inv pt endpt0 endpt1
             (Z.to_nat (iterations_needed tol L))).
    + split; assumption.
    + intros j Hj. split; [apply Hc; exact Hj | lia].
    + exact Hn.
    + lia.
  - intros He Hm Hfuel. eexists.
    apply pt_nearest_proj_raises; [lia | exact He | | lia].
    intros j Hj. apply Hc. lia.
Qed.

(** X22: a value returned on the bisection path comes from a bracket
    [x0, x1] of [0, 1] with |x1 - x0| * L <= tol whose ends still
    straddle a sign change of the numerical gradient (not positive at
    x0 * L, not negative at x1 * L); the point returned is the one [fwd]
    reaches at the distance xm * L, where xm is an end of that bracket
    and 0 < xm < 1. *)
Theorem pt_nearest_proj_final_bracket
        (fuel : nat) (tol : R) (maxiter : Z)
        (v : (R * R) * R) (calls : list grad_call) :
  enters_loop fwd inv pt endpt0 endpt1 ->
  search fuel pt endpt0 endpt1 tol maxiter = Some (Returned v, calls) ->
  exists s : bisect_vars,
    v = bisect_value fwd inv pt endpt0 endpt1 s /\
    0 <= x0 s /\ x0 s < x1 s /\ x1 s <= 1 /\
    (x1 s - x0 s) * L <= tol /\
    ~ G (x0 s * L) > 0 /\ ~ G (x1 s * L) < 0 /\
    (xm s = x0 s \/ xm s = x1 s) /\ 0 < xm s < 1.
Proof.
  intros He H.
  destruct (pt_nearest_proj_returned_inv _ _ _ _ _ _ _ _ _ _ He H)
    as (n & Hn & _ & Hw & Hv & _).
  exists (st tol n). split; [exact Hv |].
  destruct (bisect_steps_inv fwd inv pt endpt0 tol az L (endpoint_calls L) n)
    as (_ & Hx0 & Hx01 & Hx1 & _ & _).
  destruct (bisect_steps_bracket tol n He) as (Hlo & Hhi & Hxm).
  pose proof (bisect_steps_width fwd inv pt endpt0 tol az L
                (endpoint_calls L) n ltac:(lia)) as Ewidth.
  rewrite absd_pos_eq in Ewidth by lra.
  repeat (split; [first [assumption | lra] |]).
  split; [apply Hxm; lia |].
  destruct n as [| n]; [lia |].
  rewrite bisect_steps_S_r.
  pose proof (bisect_body_eq fwd inv pt endpt0 az L
                (fst (steps n (bisect_init tol) (endpoint_calls L)))
                (snd (steps n (bisect_init tol) (endpoint_calls L)))) as E.
  cbv zeta in E. rewrite E. clear E.
  destruct (bisect_steps_inv fwd inv pt endpt0 tol az L (endpoint_calls L) n)
    as (_ & Hy0 & Hy01 & Hy1 & _ & _).
  destruct (Rgt_dec _ 0); cbn [fst xm]; lra.
Qed.

(** The sign of the numerical gradient is the sign of the difference of
    the functional over one step, when L > 0. *)
Lemma grad_at_sign (f : R) :
  0 < L ->
  (G f > 0 <-> A f < A (f + 1e-7 * L)) /\
  (G f < 0 <-> A (f + 1e-7 * L) < A f).
Proof.
  intros HL. unfold grad_at, along, _along_distance_gradient.
  set (d1 := _along_distance fwd inv _ _ _ _ _ f).
  set (d2 := _along_distance fwd inv _ _ _ _ _ (f + 1e-7 * L)).
  assert (Hh : 0 < 1e-7 * L) by lra.
  assert (Hi : 0 < / (1e-7 * L)) by (apply Rinv_0_lt_compat; exact Hh).
  unfold Rdiv. split; split; intros H; nra.
Qed.

(** X23: accuracy.  Let the along-distance functional be strictly
    decreasing up to a position [fstar] and strictly increasing from it
    on, and let L > 0 and tol >= 0.  Then every value the search returns
    is the distance at a position f of [0, L] that lies within
    tol + 1e-7 * L of the position of the segment nearest to the query
    point, which is [fstar] brought back into [0, L]. *)
Theorem pt_nearest_proj_accuracy
        (fstar : R) (fuel : nat) (tol : R) (maxiter : Z)
        (q : R * R) (d : R) (calls : list grad_call) :
  0 < L -> 0 <= tol ->
  (forall a b : R, a < b -> b <= fstar -> A b < A a) ->
  (forall a b : R, fstar <= a -> a < b -> A a < A b) ->
  search fuel pt endpt0 endpt1 tol maxiter = Some (Returned (q, d), calls) ->
  exists f : R,
    0 <= f <= L /\ d = A f /\
    Rabs (f - Rmax 0 (Rmin fstar L)) <= tol + 1e-7 * L.
Proof.
  intros HL Htol Hdec Hinc H.
  assert (Hh : 0 < 1e-7 * L) by lra.
  assert (Hlo : forall f, ~ G f > 0 -> f < fstar).
  { intros f Hg. destruct (Rlt_le_dec f fstar) as [Hlt | Hge]; [exact Hlt |].
    exfalso. apply Hg. apply grad_at_sign; [exact HL |].
    apply Hinc; lra. }
  assert (Hhi : forall f, ~ G f < 0 -> fstar < f + 1e-7 * L).
  { intros f Hg.
    destruct (Rlt_le_dec fstar (f + 1e-7 * L)) as [Hlt | Hge]; [exact Hlt |].
    exfalso. apply Hg. apply grad_at_sign; [exact HL |].
    apply Hdec; lra. }
  assert (Hpos : forall f, G f > 0 -> fstar < f + 1e-7 * L).
  { intros f Hg. apply Hhi. lra. }
  assert (Hneg : forall f, G f < 0 -> f < fstar).
  { intros f Hg. apply Hlo. lra. }
  destruct (Rgt_dec (G 0) 0) as [H0 | H0].
  { (* the answer is E0 *)
    rewrite pt_nearest_proj_eq in H.
    destruct (Rgt_dec _ 0); [| contradiction].
    injection H as _ <- _. exists 0.
    split; [lra |]. split; [reflexivity |].
    pose proof (Hpos 0 H0) as Hf.
    unfold Rmax, Rmin, Rabs.
    destruct (Rle_dec fstar L), (Rle_dec 0 _), (Rcase_abs _); lra. }
  destruct (Rlt_dec (G L) 0) as [H1 | H1].
  { (* the answer is E1 *)
    rewrite pt_nearest_proj_eq in H.
    destruct (Rgt_dec _ 0); [contradiction |].
    destruct (Rlt_dec _ 0); [| contradiction].
    injection H as _ <- _. exists L.
    split; [lra |]. split; [reflexivity |].
    pose proof (Hneg L H1) as Hf.
    unfold Rmax, Rmin, Rabs.
    destruct (Rle_dec fstar L), (Rle_dec 0 _), (Rcase_abs _); lra. }
  (* the answer comes from the loop *)
  assert (He : enters_loop fwd inv pt endpt0 endpt1) by (split; assumption).
  destruct (pt_nearest_proj_returned_inv _ _ _ _ _ _ _ _ _ _ He H)
    as (n & Hn & _ & Hw & Hv & _).
  destruct (bisect_steps_inv fwd inv pt endpt0 tol az L (endpoint_calls L) n)
    as (_ & Hx0 & Hx01 & Hx1 & _ & _).
  destruct (bisect_steps_bracket tol n He) as (Hblo & Hbhi & Hxm).
  pose proof (bisect_steps_width fwd inv pt endpt0 tol az L
                (endpoint_calls L) n ltac:(lia)) as Ewidth.
  rewrite absd_pos_eq in Ewidth by lra.
  specialize (Hxm ltac:(lia)).
  apply Hlo in Hblo. apply Hhi in Hbhi.
  set (s := st tol n) in *.
  assert (Hwid : (x1 s - x0 s) * L <= tol) by lra.
  assert (Ha : 0 <= x0 s * L) by (apply Rmult_le_pos; lra).
  assert (Hb : x1 s * L <= L) by nra.
  assert (Hab : x0 s * L < x1 s * L) by nra.
  exists (xm s * L).
  unfold bisect_value in Hv. injection Hv as _ Hd.
  split; [destruct Hxm as [-> | ->]; lra |].
  split; [exact Hd |].
  unfold Rmax, Rmin, Rabs.
  destruct Hxm as [-> | ->];
    destruct (Rle_dec fstar L), (Rle_dec 0 _), (Rcase_abs _); lra.
Qed.

End SearchFurther.

(** On the unit segment of the x axis, for the query point (0.3, 0): the
    functional |0.3 - f| has its minimum at 0.3, and the run with
    tol = 0.5 answers the position 0.5. *)
Lemma pt_nearest_proj_accuracy_witness :
  0 < seg_L line_inv (0, 0) (1, 0) /\ 0 <= 0.5 /\
  (forall a b : R, a < b -> b <= 0.3 ->
     along line_fwd line_inv (0.3, 0) (0, 0) (1, 0) b
     < along line_fwd line_inv (0.3, 0) (0, 0) (1, 0) a) /\
  (forall a b : R, 0.3 <= a -> a < b ->
     along line_fwd line_inv (0.3, 0) (0, 0) (1, 0) a
     < along line_fwd line_inv (0.3, 0) (0, 0) (1, 0) b) /\
  exists f : R,
    0 <= f <= seg_L line_inv (0, 0) (1, 0) /\
    0.2 = along line_fwd line_inv (0.3, 0) (0, 0) (1, 0) f /\
    Rabs (f - Rmax 0 (Rmin 0.3 (seg_L line_inv (0, 0) (1, 0))))
    <= 0.5 + 1e-7 * seg_L line_inv (0, 0) (1, 0).
Proof.
  assert (H1 : 0 < seg_L line_inv (0, 0) (1, 0))
    by (rewrite line_unit_L; lra).
  assert (H2 : 0 <= 0.5) by lra.
  assert (H3 : forall a b : R, a < b -> b <= 0.3 ->
             along line_fwd line_inv (0.3, 0) (0, 0) (1, 0) b
             < along line_fwd line_inv (0.3, 0) (0, 0) (1, 0) a).
  { intros a b Hab Hb. unfold along. cbn [fst snd].
    rewrite !line_along_distance, !absd_pos_eq by lra. lra. }
  assert (H4 : forall a b : R, 0.3 <= a -> a < b ->
             along line_fwd line_inv (0.3, 0) (0, 0) (1, 0) a
             < along line_fwd line_inv (0.3, 0) (0, 0) (1, 0) b).
  { intros a b Ha Hab. unfold along. cbn [fst snd].
    rewrite !line_along_distance, !absd_neg_eq by lra. lra. }
  assert (Hr : pt_nearest_proj line_fwd line_inv 2 (0.3, 0) (0, 0) (1, 0)
                               0.5 5
               = Some (Returned ((0.5, 0), 0.2),
                       [mkGradCall 0 1e-7; mkGradCall 1 1e-7;
                        mkGradCall 0.5 1e-7]))
    by (apply line_run_one_iteration; lra).
  repeat (split; [assumption |]).
  exact (pt_nearest_proj_accuracy line_fwd line_inv (0.3, 0) (0, 0) (1, 0)
           0.3 2 0.5 5 (0.5, 0) 0.2 _ H1 H2 H3 H4 Hr).
Defined.

Lemma pt_nearest_proj_cost_witness :
  (0 <= 5)%Z /\ (5 < Z.of_nat 6)%Z /\
  exists r calls,
    pt_nearest_proj line_fwd line_inv 6 (0.3, 0) (0, 0) (1, 0) 0.001 5
    = Some (r, calls) /\
    (2 <= List.length calls <= 2 + Z.to_nat 5)%nat.
Proof.
  assert (H1 : (0 <= 5)%Z) by lia.
  assert (H2 : (5 < Z.of_nat 6)%Z) by lia.
  split; [exact H1 |]. split; [exact H2 |].
  exact (pt_nearest_proj_cost line_fwd line_inv (0.3, 0) (0, 0) (1, 0)
           6 0.001 5 H1 H2).
Defined.

Lemma pt_nearest_proj_converges_witness :
  0 < 0.25 /\ 0 < seg_L line_inv (0, 0) (1, 0) /\
  exists v calls,
    pt_nearest_proj line_fwd line_inv 6 (0.3, 0) (0, 0) (1, 0) 0.25 5
    = Some (Returned v, calls).
Proof.
  assert (H1 : 0 < 0.25) by lra.
  assert (H2 : 0 < seg_L line_inv (0, 0) (1, 0))
    by (rewrite line_unit_L; lra).
  split; [exact H1 |]. split; [exact H2 |].
  apply (pt_nearest_proj_converges line_fwd line_inv (0.3, 0) (0, 0) (1, 0)
           6 0.25 5 H1 H2).
  - rewrite iterations_needed_quarter. lia.
  - rewrite iterations_needed_quarter. lia.
Defined.

Lemma pt_nearest_proj_final_bracket_witness :
  enters_loop line_fwd line_inv (0.3, 0) (0, 0) (1, 0) /\
  pt_nearest_proj line_fwd line_inv 2 (0.3, 0) (0, 0) (1, 0) 0.5 5
  = Some (Returned ((0.5, 0), 0.2),
          [mkGradCall 0 1e-7; mkGradCall 1 1e-7; mkGradCall 0.5 1e-7]) /\
  exists s : bisect_vars,
    (x1 s - x0 s) * seg_L line_inv (0, 0) (1, 0) <= 0.5 /\
    0 < xm s < 1.
Proof.
  assert (He : enters_loop line_fwd line_inv (0.3, 0) (0, 0) (1, 0))
    by (apply line_enters_loop; lra).
  assert (Hr : pt_nearest_proj line_fwd line_inv 2 (0.3, 0) (0, 0) (1, 0)
                               0.5 5
               = Some (Returned ((0.5, 0), 0.2),
                       [mkGradCall 0 1e-7; mkGradCall 1 1e-7;
                        mkGradCall 0.5 1e-7]))
    by (apply line_run_one_iteration; lra).
  split; [exact He |]. split; [exact Hr |].
  destruct (pt_nearest_proj_final_bracket line_fwd line_inv
              (0.3, 0) (0, 0) (1, 0) 2 0.5 5 _ _ He Hr)
    as (s & _ & _ & _ & _ & Hw & _ & _ & _ & Hxm).
  exists s. split; assumption.
Defined.

(** ** Scalar helpers and planar products *)

(** X24: [mind], [maxd] and [absd] are the minimum, the maximum and the
    absolute value of real numbers, and they compose as those do: the
    maximum exceeds the minimum by the absolute value of the
    difference. *)
Theorem scalar_helpers (a b : R) :
  mind a b = Rmin a b /\
  maxd a b = Rmax a b /\
  absd a = Rabs a /\
  absd (- a) = absd a /\
  maxd a b - mind a b = absd (a - b).
Proof.
  unfold mind, maxd, absd, Rmin, Rmax, Rabs.
  repeat split;
    repeat match goal with
           | |- context [Rle_dec ?u ?v] => destruct (Rle_dec u v)
           | |- context [Rge_dec ?u ?v] => destruct (Rge_dec u v)
           | |- context [Rlt_dec ?u ?v] => destruct (Rlt_dec u v)
           | |- context [Rcase_abs ?u] => destruct (Rcase_abs u)
           end; lra.
Qed.

(** X25: [dot2] and [cross2] obey Lagrange's identity
    (u . v)^2 + (u x v)^2 = |u|^2 |v|^2; [cross2] changes sign when its
    arguments are swapped; and [isleft p0 p1 p2] holds exactly when the
    cross product of p1 - p0 and p2 - p0 is positive. *)
Theorem cross2_area (u v : Vector2) (p0 p1 p2 : R * R) :
  dot2 u v * dot2 u v + cross2 u v * cross2 u v = dot2 u u * dot2 v v /\
  cross2 v u = - cross2 u v /\
  (isleft p0 p1 p2 = true
   <-> cross2 (mkVector2 (fst p1 - fst p0) (snd p1 - snd p0))
              (mkVector2 (fst p2 - fst p0) (snd p2 - snd p0)) > 0).
Proof.
  unfold dot2, cross2, isleft; cbn [x2 y2].
  split; [ring |]. split; [ring |].
  destruct (Rgt_dec _ 0) as [H | H]; split; intros H'.
  - exact H.
  - reflexivity.
  - discriminate.
  - contradiction.
Qed.
